(** * MergeAdjacentBarriers: the barrier-merging transpiler pass

    A shallow embedding of
    [qiskit/transpiler/passes/merge_adjacent_barriers.py]
    ([MergeAdjacentBarriers.run] and
    [MergeAdjacentBarriers._collect_potential_merges]) together with the part
    of the circuit DAG that the pass reads and writes, and the properties of
    the pass stated in the specification. *)

From stdpp Require Import base gmap sets list strings.

(** * Data model *)

(** Modelled from the spec: a quantum or classical register of the absent
    [qiskit.circuit], a resource group with a name and a number of bits. *)
Record Register := mkRegister { reg_name : string; reg_size : nat }.

(** Modelled from the spec: an addressable resource. A bit is a pair
    (register name, index), as the tuples [(QuantumRegister, int)] that the
    pass finds in [qargs] and [cargs]. *)
Definition Qubit : Type := string * nat.
Definition Clbit : Type := string * nat.

(** Modelled from the spec: an operation, the absent class [Instruction].
    The pass reads its name only; its parameters are an uninterpreted payload
    that is copied with the operation. *)
Record Instruction := mkInstruction {
  op_name : string;
  num_qubits : nat;
  num_clbits : nat;
  params : list Z
}.

(** Modelled from the spec: the class [Barrier] of
    [qiskit.extensions.standard.barrier], an explicit tagged value of kind
    marker and width [n] without parameters. *)
Definition Barrier (n : nat) : Instruction := mkInstruction "barrier"%string n 0 [].

(** Modelled from the spec: truth value of an operation object in a Python
    [if]. The class has neither [__bool__] nor [__len__], and the collector
    closes every group, also one of size one and of any width. *)
Definition truth (o : Instruction) : bool := true.

(** Modelled from the spec: a node of the graph, [DAGNode]. Its identity is the
    stable handle [node_id]; sets and dictionaries of nodes are keyed by it.
    The node's name is the name of its operation. *)
Record DAGNode := mkDAGNode {
  node_id : nat;
  op : Instruction;
  qargs : list Qubit;
  cargs : list Clbit;
  condition : option (Register * Z)
}.

(** [nd.name] *)
Definition name (nd : DAGNode) : string := op_name (op nd).

#[global] Instance Register_eq_dec : EqDecision Register.
Proof. solve_decision. Defined.
#[global] Instance Instruction_eq_dec : EqDecision Instruction.
Proof. solve_decision. Defined.
#[global] Instance DAGNode_eq_dec : EqDecision DAGNode.
Proof. solve_decision. Defined.

(** * The graph store *)

(** Modelled from the spec: [DAGCircuit], the graph store. It holds the
    registers in the order of their declaration and the operation nodes in the
    order they were appended; the wire of a bit is the chain of the nodes that
    touch it, in that order. The input and output nodes that the source keeps
    at the two ends of every wire are no operation nodes and are left out. *)
Record DAGCircuit := mkDAGCircuit {
  qregs : list Register;
  cregs : list Register;
  max_node_id : nat;
  op_nodes : list DAGNode
}.

#[global] Instance DAGCircuit_eq_dec : EqDecision DAGCircuit.
Proof. solve_decision. Defined.

(** Modelled from the spec: [DAGCircuit()], the graph without registers and
    nodes. *)
Definition empty_DAGCircuit : DAGCircuit := mkDAGCircuit [] [] 0 [].

(** Modelled from the spec: [add_qreg] and [add_creg] of the graph store
    register a resource group. *)
Definition add_qreg (qreg : Register) (dag : DAGCircuit) : DAGCircuit :=
  mkDAGCircuit (qregs dag ++ [qreg]) (cregs dag) (max_node_id dag) (op_nodes dag).

Definition add_creg (creg : Register) (dag : DAGCircuit) : DAGCircuit :=
  mkDAGCircuit (qregs dag) (cregs dag ++ [creg]) (max_node_id dag) (op_nodes dag).

(** Modelled from the spec: [apply_operation_back] of the graph store appends
    an operation. A node with a fresh handle is created and becomes the last
    node on the wire of each of its operands. The faults the construction API
    reports for undeclared bits are outside the pass and are not modelled. *)
Definition apply_operation_back (o : Instruction) (qs : list Qubit)
    (cs : list Clbit) (cond : option (Register * Z)) (dag : DAGCircuit)
    : DAGCircuit :=
  let nid := S (max_node_id dag) in
  mkDAGCircuit (qregs dag) (cregs dag) nid
    (op_nodes dag ++ [mkDAGNode nid o qs cs cond]).

(** Modelled from the spec: [topological_op_nodes], the topological
    iterator, a linearization of the operation nodes that is consistent with
    every wire and breaks ties by append order. Every edge of the graph leads
    from a node to one appended later, so this is the append order itself. *)
Definition topological_op_nodes (dag : DAGCircuit) : list DAGNode :=
  op_nodes dag.

(** ** Wires and reachability *)

(** Modelled from the spec: a wire belongs to one qubit or one classical
    bit. *)
Inductive Wire := QWire (q : Qubit) | CWire (c : Clbit).

#[global] Instance Wire_eq_dec : EqDecision Wire.
Proof. solve_decision. Defined.

(** Modelled from the spec: the bits of the register that a classical
    condition (register, expected value) tests. *)
Definition condition_bits (cond : option (Register * Z)) : list Clbit :=
  match cond with
  | None => []
  | Some (creg, _) => (λ i, (reg_name creg, i)) <$> seq 0 (reg_size creg)
  end.

(** Modelled from the spec: the wires a node lies on, those of its qubit
    operands, of its classical operands and of the bits of its condition. *)
Definition node_wires (nd : DAGNode) : list Wire :=
  (QWire <$> qargs nd) ++ (CWire <$> (cargs nd ++ condition_bits (condition nd))).

(** Modelled from the spec: the node lies on one of the wires [ws]. *)
Definition touches (ws : list Wire) (nd : DAGNode) : bool :=
  bool_decide (Exists (λ w, w ∈ node_wires nd) ws).

(** Modelled from the spec: the traversal of the reachability oracle.
    [reach ws l] holds the nodes of [l] reached from the wires [ws] when [l]
    is walked away from the query node. A node that lies on a reached wire is
    reached, and so is every wire it lies on. *)
Fixpoint reach (ws : list Wire) (l : list DAGNode) : gset nat :=
  match l with
  | [] => ∅
  | m :: l' =>
      if touches ws m then {[ node_id m ]} ∪ reach (node_wires m ++ ws) l'
      else reach ws l'
  end.

(** Modelled from the spec: the nodes that follow the node with handle [n]
    in [l]. *)
Fixpoint nodes_after (n : nat) (l : list DAGNode) : list DAGNode :=
  match l with
  | [] => []
  | m :: l' => if decide (node_id m = n) then l' else nodes_after n l'
  end.

(** Modelled from the spec: [descendants] of the reachability oracle, the
    handles of the nodes reachable from [nd] along wire edges, [nd] itself
    left out. *)
Definition descendants (dag : DAGCircuit) (nd : DAGNode) : gset nat :=
  reach (node_wires nd) (nodes_after (node_id nd) (op_nodes dag)).

(** Modelled from the spec: [ancestors] of the reachability oracle, the
    handles of the nodes with a path to [nd] along wire edges, [nd] itself
    left out. *)
Definition ancestors (dag : DAGCircuit) (nd : DAGNode) : gset nat :=
  reach (node_wires nd) (nodes_after (node_id nd) (reverse (op_nodes dag))).

(** * The merge-candidate collector *)

(** The local variables of [_collect_potential_merges] that live across the
    iterations of its loop. *)
Record Collector := mkCollector {
  node_to_barrier_qubits : gmap nat (gset Qubit);
  end_of_barrier : DAGNode;
  current_barrier_nodes : list DAGNode;
  current_qubits : gset Qubit;
  current_ancestors : gset nat;
  current_descendants : gset nat;
  barrier_to_add : Instruction
}.

(** [s.isdisjoint(t)] *)
Definition isdisjoint `{Countable A} (s t : gset A) : bool :=
  bool_decide (s ## t).

(** [nd not in current_barrier_nodes] *)
Definition not_in_nodes (l : list DAGNode) (nd : nat) : Prop :=
  nd ∉ node_id <$> l.

#[global] Instance not_in_nodes_dec l nd : Decision (not_in_nodes l nd).
Proof. unfold not_in_nodes. apply _. Defined.

Definition next_ancestors (dag : DAGCircuit) (st : Collector)
    (next_barrier : DAGNode) : gset nat :=
  filter (not_in_nodes (current_barrier_nodes st)) (ancestors dag next_barrier).

Definition next_descendants (dag : DAGCircuit) (st : Collector)
    (next_barrier : DAGNode) : gset nat :=
  filter (not_in_nodes (current_barrier_nodes st)) (descendants dag next_barrier).

Definition next_qubits (next_barrier : DAGNode) : gset Qubit :=
  list_to_set (qargs next_barrier).

(** The test of lines 110-114. *)
Definition can_merge (dag : DAGCircuit) (st : Collector)
    (next_barrier : DAGNode) : bool :=
  negb (isdisjoint (current_qubits st) (next_qubits next_barrier))
  && isdisjoint (current_ancestors st) (next_descendants dag st next_barrier)
  && isdisjoint (current_descendants st) (next_ancestors dag st next_barrier).

(** [if barrier_to_add: node_to_barrier_qubits[end_of_barrier] = current_qubits] *)
Definition store_barrier (st : Collector) : gmap nat (gset Qubit) :=
  if truth (barrier_to_add st)
  then <[ node_id (end_of_barrier st) := current_qubits st ]> (node_to_barrier_qubits st)
  else node_to_barrier_qubits st.

(** The state before the loop, lines 87-98. *)
Definition collect_init (dag : DAGCircuit) (current_barrier : DAGNode)
    : Collector :=
  let qubits : gset Qubit := list_to_set (qargs current_barrier) in
  mkCollector ∅ current_barrier [current_barrier] qubits
    (ancestors dag current_barrier) (descendants dag current_barrier)
    (Barrier (size qubits)).

(** One iteration of the loop, lines 100-138. *)
Definition collect_step (dag : DAGCircuit) (st : Collector)
    (next_barrier : DAGNode) : Collector :=
  if can_merge dag st next_barrier then
    let qubits := current_qubits st ∪ next_qubits next_barrier in
    mkCollector (node_to_barrier_qubits st) next_barrier
      (current_barrier_nodes st ++ [next_barrier]) qubits
      (current_ancestors st ∪ next_ancestors dag st next_barrier)
      (current_descendants st ∪ next_descendants dag st next_barrier)
      (Barrier (size qubits))
  else
    let qubits : gset Qubit := list_to_set (qargs next_barrier) in
    mkCollector (store_barrier st) next_barrier ([] ++ [next_barrier]) qubits
      (ancestors dag next_barrier) (descendants dag next_barrier)
      (Barrier (size qubits)).

Definition collect_loop (dag : DAGCircuit) (st : Collector)
    (rest : list DAGNode) : Collector :=
  foldl (collect_step dag) st rest.

(** [_collect_potential_merges(dag, barriers)]; the result [None] is Python's
    [None]. *)
Definition _collect_potential_merges (dag : DAGCircuit)
    (barriers : list DAGNode) : option (gmap nat (gset Qubit)) :=
  if bool_decide (length barriers < 2) then None
  else
    match barriers with
    | [] => None
    | current_barrier :: rest =>
        Some (store_barrier (collect_loop dag (collect_init dag current_barrier) rest))
    end.

(** * The pass *)

(** Graph objects live in a store and are passed by reference: a reference is
    an index into the store, a new object is put at its end. *)
Abbreviation Heap := (list DAGCircuit).

(** [new_dag = DAGCircuit()] *)
Definition new_DAGCircuit (h : Heap) : Heap * nat :=
  (h ++ [empty_DAGCircuit], length h).

(** Truth value of the collector's result in [if not node_to_barrier_qubits]:
    [None] and the empty dictionary are false. *)
Definition dict_truth (m : option (gmap nat (gset Qubit))) : bool :=
  match m with
  | None => false
  | Some m => negb (bool_decide (m = ∅))
  end.

(** The body of the loop of lines 60-72, on the object [new_dag]. The order
    in which [list(qubits)] lists a set is not fixed by the language;
    [elements] stands for it, and no statement depends on the order. *)
Definition rewrite_node (m : gmap nat (gset Qubit)) (new_dag : nat)
    (h : Heap) (node : DAGNode) : Heap :=
  if bool_decide (name node = "barrier"%string) then
    match m !! node_id node with
    | Some qubits =>
        alter (apply_operation_back (Barrier (size qubits)) (elements qubits) [] None)
          new_dag h
    | None => h
    end
  else
    match condition node with
    | Some c =>
        alter (apply_operation_back (op node) (qargs node) (cargs node) (Some c))
          new_dag h
    | None =>
        alter (apply_operation_back (op node) (qargs node) (cargs node) None)
          new_dag h
    end.

(** [MergeAdjacentBarriers.run(dag)]: from a store and a reference to the
    input graph to the store after the call and the reference returned.
    [None] stands for a dangling reference. *)
Definition run (h : Heap) (dag : nat) : option (Heap * nat) :=
  d ← h !! dag;
  let barriers :=
    filter (λ nd, name nd = "barrier"%string) (topological_op_nodes d) in
  let merges := _collect_potential_merges d barriers in
  if negb (dict_truth merges) then Some (h, dag)
  else
    let m := default ∅ merges in
    let '(h, new_dag) := new_DAGCircuit h in
    d ← h !! dag;
    let h := foldl (λ h qreg, alter (add_qreg qreg) new_dag h) h (qregs d) in
    d ← h !! dag;
    let h := foldl (λ h creg, alter (add_creg creg) new_dag h) h (cregs d) in
    d ← h !! dag;
    let h := foldl (rewrite_node m new_dag) h (topological_op_nodes d) in
    Some (h, new_dag).

(** * Notions used in the statements *)

(** The marker nodes of a graph, as [run] lists them on line 43. *)
Definition barriers_of (d : DAGCircuit) : list DAGNode :=
  filter (λ nd, name nd = "barrier"%string) (topological_op_nodes d).

(** The other operation nodes, in the order of the walk. *)
Definition non_barriers_of (d : DAGCircuit) : list DAGNode :=
  filter (λ nd, name nd ≠ "barrier"%string) (topological_op_nodes d).

(** What a node carries besides its handle: operation, ordered qubit and
    classical operands, classical condition. *)
Definition payload (nd : DAGNode)
    : Instruction * list Qubit * list Clbit * option (Register * Z) :=
  (op nd, qargs nd, cargs nd, condition nd).

(** The handles of a list of nodes. *)
Definition node_ids (l : list DAGNode) : gset nat :=
  list_to_set (node_id <$> l).

(** The union of the qubit sets of the members of a group. *)
Definition group_qubits (g : list DAGNode) : gset Qubit :=
  ⋃ (next_qubits <$> g).

(** What holds of the collector's variables between two iterations: the
    anchor is the last member, and the qubit set is the union over the
    members. *)
Definition group_inv (st : Collector) : Prop :=
  last (current_barrier_nodes st) = Some (end_of_barrier st)
  ∧ current_qubits st = group_qubits (current_barrier_nodes st).

(** The states of the collector at the moments it stores an entry (lines
    126-127 inside the loop, lines 140-141 after it), in that order. The merge
    groups are the values of [current_barrier_nodes] in these states. *)
Fixpoint closings (dag : DAGCircuit) (st : Collector) (rest : list DAGNode)
    : list Collector :=
  match rest with
  | [] => [st]
  | next_barrier :: rest' =>
      if can_merge dag st next_barrier
      then closings dag (collect_step dag st next_barrier) rest'
      else st :: closings dag (collect_step dag st next_barrier) rest'
  end.

(** The group's union sets hold no member of the group. *)
Definition group_sets_pruned (st : Collector) : Prop :=
  ∀ m, m ∈ current_barrier_nodes st →
    (node_id m ∉ current_ancestors st) ∧ (node_id m ∉ current_descendants st).

(** What the rewriter appends for one node of the walk. *)
Definition emit (m : gmap nat (gset Qubit)) (node : DAGNode)
    : list (Instruction * list Qubit * list Clbit * option (Register * Z)) :=
  if bool_decide (name node = "barrier"%string) then
    match m !! node_id node with
    | Some qubits => [(Barrier (size qubits), elements qubits, [], None)]
    | None => []
    end
  else [payload node].

(** The effect of one iteration of the rewriter's loop on the new graph. *)
Definition rewrite_graph (m : gmap nat (gset Qubit)) (node : DAGNode)
    (g : DAGCircuit) : DAGCircuit :=
  if bool_decide (name node = "barrier"%string) then
    match m !! node_id node with
    | Some qubits =>
        apply_operation_back (Barrier (size qubits)) (elements qubits) [] None g
    | None => g
    end
  else apply_operation_back (op node) (qargs node) (cargs node) (condition node) g.

(** The graph lines 52-72 build from the graph [d] and the mapping [m]. *)
Definition rebuild (m : gmap nat (gset Qubit)) (d : DAGCircuit) : DAGCircuit :=
  foldl (λ g node, rewrite_graph m node g)
    (foldl (λ g creg, add_creg creg g)
       (foldl (λ g qreg, add_qreg qreg g) empty_DAGCircuit (qregs d))
       (cregs d))
    (topological_op_nodes d).

(** The collector's state with the members of the group taken out of the
    group's two union sets. *)
Definition prune_group (st : Collector) : Collector :=
  mkCollector (node_to_barrier_qubits st) (end_of_barrier st)
    (current_barrier_nodes st) (current_qubits st)
    (current_ancestors st ∖ node_ids (current_barrier_nodes st))
    (current_descendants st ∖ node_ids (current_barrier_nodes st))
    (barrier_to_add st).

(** The invariant of the graph store that the pass relies on: handles are
    unique, and none exceeds the counter they are drawn from. *)
Definition wf_dag (d : DAGCircuit) : Prop :=
  NoDup (node_id <$> op_nodes d)
  ∧ Forall (λ nd, node_id nd ≤ max_node_id d) (op_nodes d).

#[global] Instance wf_dag_dec d : Decision (wf_dag d).
Proof. unfold wf_dag. apply _. Defined.

(** [node_to_barrier_qubits[end_of_barrier] = current_qubits] in state [c]. *)
Definition store_entry (m : gmap nat (gset Qubit)) (c : Collector)
    : gmap nat (gset Qubit) :=
  <[ node_id (end_of_barrier c) := current_qubits c ]> m.

(** The collapsed marker the rewriter creates for the qubit set [qubits]. *)
Definition collapsed_marker (qubits : gset Qubit)
    : Instruction * list Qubit * list Clbit * option (Register * Z) :=
  (Barrier (size qubits), elements qubits, [], None).

(** The state [c] in which the entry of a merge group is stored, for a walk
    that starts at the marker [b0], has processed the markers [done] and has
    the markers [todo] left: [c] is the state the loop of lines 100-138 is in
    after [done]; the next marker, if one is left, fails the test of lines
    110-114; the members of [c] are the markers processed last; and when [c]
    has more than one member, its last member [a] is the marker processed
    last and passed the test against the members before it. *)
Definition group_closed (d : DAGCircuit) (b0 : DAGNode)
    (done todo : list DAGNode) (c : Collector) : Prop :=
  c = collect_loop d (collect_init d b0) done
  ∧ (∀ B todo', todo = B :: todo' → can_merge d c B = false)
  ∧ (∃ before, b0 :: done = before ++ current_barrier_nodes c)
  ∧ (∀ g a, current_barrier_nodes c = g ++ [a] → g ≠ [] →
       ∃ done',
         done = done' ++ [a]
         ∧ current_barrier_nodes (collect_loop d (collect_init d b0) done') = g
         ∧ can_merge d (collect_loop d (collect_init d b0) done') a = true).

(** ** The edge relation in the words of the specification *)

(** Modelled from the spec: the wire of a bit, the ordered chain of the
    nodes that touch it. *)
Definition wire (d : DAGCircuit) (w : Wire) : list DAGNode :=
  filter (λ nd, w ∈ node_wires nd) (op_nodes d).

(** Modelled from the spec: a wire induces a directed edge between each
    consecutive pair of its nodes. *)
Definition wire_edge (d : DAGCircuit) (a b : DAGNode) : Prop :=
  ∃ w l1 l2, wire d w = l1 ++ a :: b :: l2.

(** Modelled from the spec: the nodes reachable from [nd] and the nodes with
    a directed path to [nd]. *)
Definition Descendants (d : DAGCircuit) (nd m : DAGNode) : Prop :=
  tc (wire_edge d) nd m.


(** [a] comes before [b] in [l] and lies on a wire of [b]. *)
Definition linked (l : list DAGNode) (a b : DAGNode) : Prop :=
  (∃ l1 l2 l3, l = l1 ++ a :: l2 ++ b :: l3)
  ∧ ∃ w, w ∈ node_wires a ∧ w ∈ node_wires b.

(** The nodes [reach] collects, as a relation. *)
Inductive Reached : list Wire → list DAGNode → DAGNode → Prop :=
  | Reached_here ws x l :
      touches ws x = true → Reached ws (x :: l) x
  | Reached_skip ws x l m :
      Reached ws l m → Reached ws (x :: l) m
  | Reached_via ws x l m :
      touches ws x = true → Reached (node_wires x ++ ws) l m →
      Reached ws (x :: l) m.

(** ** Test circuits *)

Definition q (i : nat) : Qubit := ("q"%string, i).
Definition qr (n : nat) : Register := mkRegister "q"%string n.
Definition XGate : Instruction := mkInstruction "x"%string 1 0 [].

(** [circuit.barrier(qr[0]); circuit.barrier(qr[0])] *)
Definition dag_twice : DAGCircuit :=
  apply_operation_back (Barrier 1) [q 0] [] None
    (apply_operation_back (Barrier 1) [q 0] [] None
       (add_qreg (qr 1) empty_DAGCircuit)).

(** [circuit.barrier(qr[0]); circuit.x(qr[0]); circuit.barrier(qr[0])] *)
Definition dag_blocked : DAGCircuit :=
  apply_operation_back (Barrier 1) [q 0] [] None
    (apply_operation_back XGate [q 0] [] None
       (apply_operation_back (Barrier 1) [q 0] [] None
          (add_qreg (qr 1) empty_DAGCircuit))).

(** The circuit of the module docstring:
    [circuit.barrier(qr[0]); circuit.barrier(qr[1]); circuit.barrier(qr)] *)
Definition dag_docstring : DAGCircuit :=
  apply_operation_back (Barrier 3) [q 0; q 1; q 2] [] None
    (apply_operation_back (Barrier 1) [q 1] [] None
       (apply_operation_back (Barrier 1) [q 0] [] None
          (add_qreg (qr 3) empty_DAGCircuit))).

(** [circuit.barrier(qr[0])] *)
Definition dag_single : DAGCircuit :=
  apply_operation_back (Barrier 1) [q 0] [] None
    (add_qreg (qr 1) empty_DAGCircuit).

(** [circuit.x(qr[0]); circuit.barrier(qr[0]); circuit.barrier(qr);
     circuit.barrier(qr[1]); circuit.x(qr[1])] *)
Definition dag_between : DAGCircuit :=
  apply_operation_back XGate [q 1] [] None
    (apply_operation_back (Barrier 1) [q 1] [] None
       (apply_operation_back (Barrier 2) [q 0; q 1] [] None
          (apply_operation_back (Barrier 1) [q 0] [] None
             (apply_operation_back XGate [q 0] [] None
                (add_qreg (qr 2) empty_DAGCircuit))))).

(** ** Notions for the further properties of the pass *)

(** The qubit set the mapping holds for a node, empty when the node is no
    key. *)
Definition mapped_qubits (m : gmap nat (gset Qubit)) (nd : DAGNode)
    : gset Qubit :=
  default ∅ (m !! node_id nd).

(** The qubits that lie under some marker of the graph. *)
Definition covered_qubits (d : DAGCircuit) : gset Qubit :=
  group_qubits (barriers_of d).

(** A marker as line 65 creates it: a barrier as wide as its list of qubit
    operands, which has no repetition, without classical operands and without
    condition. *)
Definition plain_barrier (nd : DAGNode) : Prop :=
  op nd = Barrier (length (qargs nd)) ∧ NoDup (qargs nd)
  ∧ cargs nd = [] ∧ condition nd = None.



(** Each member of the group but the first shares a qubit with the members
    before it. *)
Definition overlapping (g : list DAGNode) : Prop :=
  ∀ g1 B g2, g = g1 ++ B :: g2 → g1 ≠ [] →
    group_qubits g1 ∩ next_qubits B ≠ ∅.

(** Two nodes with the same name on the same set of qubits. *)
Definition same_shape (a b : DAGNode) : Prop :=
  name a = name b ∧ next_qubits a = next_qubits b.

(** * The rewriter as a function of the input graph *)

(** Closed decidable goals are settled by evaluation. *)
Ltac by_evaluation := apply (bool_decide_unpack _); by vm_compute.

Lemma foldl_alter {B} (f : B → DAGCircuit → DAGCircuit) (l : nat) (xs : list B)
    (h : Heap) :
  foldl (λ h x, alter (f x) l h) h xs
  = alter (λ g, foldl (λ g x, f x g) g xs) l h.
Proof.
  revert h. induction xs as [|x xs IH]; intros h; simpl.
  - symmetry. by apply list_alter_id.
  - rewrite IH. by rewrite list_alter_alter_eq.
Qed.

Lemma add_qregs_eq (g : DAGCircuit) (rs : list Register) :
  foldl (λ g qreg, add_qreg qreg g) g rs
  = mkDAGCircuit (qregs g ++ rs) (cregs g) (max_node_id g) (op_nodes g).
Proof.
  revert g. induction rs as [|r rs IH]; intros g; simpl.
  - rewrite app_nil_r. by destruct g.
  - rewrite IH. simpl. by rewrite <- app_assoc.
Qed.

Lemma add_cregs_eq (g : DAGCircuit) (rs : list Register) :
  foldl (λ g creg, add_creg creg g) g rs
  = mkDAGCircuit (qregs g) (cregs g ++ rs) (max_node_id g) (op_nodes g).
Proof.
  revert g. induction rs as [|r rs IH]; intros g; simpl.
  - rewrite app_nil_r. by destruct g.
  - rewrite IH. simpl. by rewrite <- app_assoc.
Qed.

Section rewriter.
Context (m : gmap nat (gset Qubit)).

Lemma rewrite_node_alter l h node :
  rewrite_node m l h node = alter (rewrite_graph m node) l h.
Proof.
  unfold rewrite_node, rewrite_graph. case_bool_decide.
  - destruct (m !! node_id node); [done|].
    symmetry. by apply list_alter_id.
  - by destruct (condition node).
Qed.

Lemma foldl_rewrite_node l h nodes :
  foldl (rewrite_node m l) h nodes
  = alter (λ g, foldl (λ g node, rewrite_graph m node g) g nodes) l h.
Proof.
  rewrite <- (foldl_alter (rewrite_graph m)).
  revert h. induction nodes as [|x xs IH]; intros h; simpl; [done|].
  by rewrite rewrite_node_alter, IH.
Qed.

Lemma rewrite_graph_regs node g :
  qregs (rewrite_graph m node g) = qregs g
  ∧ cregs (rewrite_graph m node g) = cregs g.
Proof.
  unfold rewrite_graph. case_bool_decide; [|done].
  by destruct (m !! node_id node).
Qed.

Lemma rewrite_graph_payload node g :
  payload <$> op_nodes (rewrite_graph m node g)
  = (payload <$> op_nodes g) ++ emit m node.
Proof.
  unfold rewrite_graph, emit. case_bool_decide.
  - destruct (m !! node_id node); simpl.
    + by rewrite fmap_app.
    + by rewrite app_nil_r.
  - simpl. by rewrite fmap_app.
Qed.

Lemma foldl_rewrite_graph nodes g :
  let g' := foldl (λ g node, rewrite_graph m node g) g nodes in
  qregs g' = qregs g ∧ cregs g' = cregs g
  ∧ payload <$> op_nodes g' = (payload <$> op_nodes g) ++ (nodes ≫= emit m).
Proof.
  revert g. induction nodes as [|x xs IH]; intros g; simpl.
  - by rewrite app_nil_r.
  - destruct (IH (rewrite_graph m x g)) as (Hq & Hc & Hp).
    destruct (rewrite_graph_regs x g) as [Hq' Hc'].
    rewrite Hq, Hc, Hp, rewrite_graph_payload, <- app_assoc. done.
Qed.

(** The registers and the node sequence of the rebuilt graph. *)
Lemma rebuild_spec d :
  qregs (rebuild m d) = qregs d ∧ cregs (rebuild m d) = cregs d
  ∧ payload <$> op_nodes (rebuild m d) = topological_op_nodes d ≫= emit m.
Proof.
  unfold rebuild.
  destruct (foldl_rewrite_graph (topological_op_nodes d)
    (foldl (λ g creg, add_creg creg g)
       (foldl (λ g qreg, add_qreg qreg g) empty_DAGCircuit (qregs d))
       (cregs d))) as (Hq & Hc & Hp).
  rewrite Hq, Hc, Hp, add_cregs_eq, add_qregs_eq. done.
Qed.

End rewriter.

(** [run] either hands back its argument or puts [rebuild] of the input at the
    end of the store. *)
Lemma run_eq (h : Heap) (r : nat) (d : DAGCircuit) :
  h !! r = Some d →
  run h r =
    Some (match _collect_potential_merges d (barriers_of d) with
          | Some m => if bool_decide (m = ∅) then (h, r)
                      else (h ++ [rebuild m d], length h)
          | None => (h, r)
          end).
Proof.
  intros Hr. unfold run. rewrite Hr. simpl. fold (barriers_of d).
  destruct (_collect_potential_merges d (barriers_of d)) as [m|]; simpl; [|done].
  case_bool_decide; simpl; [done|].
  assert (Hlt : r < length h) by (by eapply lookup_lt_Some).
  assert (Hne : length h ≠ r) by lia.
  rewrite lookup_app_l, Hr by done. simpl.
  rewrite foldl_alter, list_lookup_alter_ne, lookup_app_l, Hr by done. simpl.
  rewrite foldl_alter, !list_lookup_alter_ne, lookup_app_l, Hr by done. simpl.
  rewrite foldl_rewrite_node, !list_alter_alter_eq.
  rewrite alter_app_r_alt by lia. rewrite Nat.sub_diag. done.
Qed.

(** * The collector's loop *)

Section collector_loop.
Context (dag : DAGCircuit).
Implicit Types (st : Collector) (B : DAGNode).

Lemma pruned_eq (l : list DAGNode) (X : gset nat) :
  filter (not_in_nodes l) X = X ∖ node_ids l.
Proof.
  apply set_eq. intros n. rewrite elem_of_filter, elem_of_difference.
  unfold not_in_nodes, node_ids. rewrite elem_of_list_to_set. tauto.
Qed.

Lemma can_merge_true st B :
  can_merge dag st B = true ↔
    current_qubits st ∩ list_to_set (qargs B) ≠ ∅
    ∧ current_ancestors st ## descendants dag B ∖ node_ids (current_barrier_nodes st)
    ∧ current_descendants st ## ancestors dag B ∖ node_ids (current_barrier_nodes st).
Proof.
  unfold can_merge, isdisjoint, next_descendants, next_ancestors, next_qubits.
  rewrite !pruned_eq, !andb_true_iff, negb_true_iff.
  rewrite bool_decide_eq_false, !bool_decide_eq_true.
  pose proof (disjoint_intersection_L (current_qubits st)
                (list_to_set (qargs B))) as Hq.
  tauto.
Qed.

Lemma group_qubits_snoc g B :
  group_qubits (g ++ [B]) = group_qubits g ∪ next_qubits B.
Proof.
  unfold group_qubits. rewrite fmap_app, union_list_app_L. simpl.
  by rewrite (right_id_L ∅ (∪)).
Qed.

Lemma collect_init_inv b0 : group_inv (collect_init dag b0).
Proof.
  split; [reflexivity|]. unfold group_qubits, next_qubits. simpl.
  by rewrite (right_id_L ∅ (∪)).
Qed.

Lemma collect_step_inv st B :
  group_inv st → group_inv (collect_step dag st B).
Proof.
  intros [Hl Hq]. unfold collect_step.
  destruct (can_merge dag st B); split; simpl.
  - apply last_snoc.
  - by rewrite group_qubits_snoc, Hq.
  - done.
  - unfold group_qubits, next_qubits. simpl. by rewrite (right_id_L ∅ (∪)).
Qed.

Lemma collect_loop_inv st rest :
  group_inv st → group_inv (collect_loop dag st rest).
Proof.
  revert st. induction rest as [|B rest IH]; intros st Hst; simpl; [done|].
  apply IH. by apply collect_step_inv.
Qed.

Lemma group_inv_nonempty st : group_inv st → current_barrier_nodes st ≠ [].
Proof. intros [Hl _] Hnil. by rewrite Hnil in Hl. Qed.

End collector_loop.

(** ** C1 *)

(** C1. In the collector, with [G] the current group after any number of
    iterations and [B] the next marker: [B] is appended to the members of [G]
    exactly when (a) the qubit sets of [G] and [B] intersect, (b) the
    ancestors of [G] are disjoint from the descendants of [B] and (c) the
    descendants of [G] are disjoint from the ancestors of [B], the two sets of
    [B] being taken without the members of [G]. When the three hold the
    mapping is left alone and the sets of [B] are added to those of [G]; when
    one fails the entry of [G] is stored under its anchor and the new group is
    [B] alone with the sets of [B]. *)
Theorem C1_absorbed_iff_three_conditions
    (dag : DAGCircuit) (b0 : DAGNode) (bs : list DAGNode) (B : DAGNode) :
  let G := collect_loop dag (collect_init dag b0) bs in
  let G' := collect_step dag G B in
  let members := node_ids (current_barrier_nodes G) in
  let anc_B := ancestors dag B ∖ members in
  let desc_B := descendants dag B ∖ members in
  let conditions :=
    current_qubits G ∩ list_to_set (qargs B) ≠ ∅
    ∧ current_ancestors G ## desc_B
    ∧ current_descendants G ## anc_B in
  current_qubits G = group_qubits (current_barrier_nodes G)
  ∧ (conditions ↔ current_barrier_nodes G' = current_barrier_nodes G ++ [B])
  ∧ (conditions →
       node_to_barrier_qubits G' = node_to_barrier_qubits G
       ∧ end_of_barrier G' = B
       ∧ current_qubits G' = current_qubits G ∪ list_to_set (qargs B)
       ∧ current_ancestors G' = current_ancestors G ∪ anc_B
       ∧ current_descendants G' = current_descendants G ∪ desc_B)
  ∧ (¬ conditions →
       node_to_barrier_qubits G'
         = <[ node_id (end_of_barrier G) := current_qubits G ]> (node_to_barrier_qubits G)
       ∧ end_of_barrier G' = B
       ∧ current_barrier_nodes G' = [B]
       ∧ current_qubits G' = list_to_set (qargs B)
       ∧ current_ancestors G' = ancestors dag B
       ∧ current_descendants G' = descendants dag B).
Proof.
  intros G G' members anc_B desc_B conditions.
  assert (Hinv : group_inv G) by apply collect_loop_inv, collect_init_inv.
  pose proof (group_inv_nonempty G Hinv) as Hne.
  pose proof (can_merge_true dag G B) as Hcm.
  fold members in Hcm. fold anc_B desc_B conditions in Hcm.
  subst G'. unfold collect_step, next_ancestors, next_descendants.
  rewrite !pruned_eq. fold members anc_B desc_B.
  destruct (can_merge dag G B) eqn:E; simpl.
  - assert (Hc : conditions) by (by apply Hcm).
    split; [apply Hinv|]. split; [tauto|]. split; [done|]. tauto.
  - assert (Hc : ¬ conditions) by (intros Hc; apply Hcm in Hc; done).
    split; [apply Hinv|]. split; [|split; [tauto|done]].
    split; [tauto|]. intros Heq. exfalso.
    destruct (current_barrier_nodes G) as [|x members']; [done|].
    simplify_list_eq. by destruct members'.
Qed.

(** * Well-formed graphs and the reachability oracle *)

Lemma wf_empty : wf_dag empty_DAGCircuit.
Proof. split; simpl; constructor. Qed.

Lemma wf_add_qreg r d : wf_dag d → wf_dag (add_qreg r d).
Proof. done. Qed.

Lemma wf_add_creg r d : wf_dag d → wf_dag (add_creg r d).
Proof. done. Qed.

Lemma wf_apply_operation_back o qs cs c d :
  wf_dag d → wf_dag (apply_operation_back o qs cs c d).
Proof.
  intros [Hnd Hle]. split; simpl.
  - rewrite fmap_app. apply NoDup_app. split; [done|]. split.
    + intros n Hn. simpl. rewrite list_elem_of_singleton. intros ->.
      apply list_elem_of_fmap in Hn as (nd & Hid & Hin).
      rewrite Forall_forall in Hle. apply Hle in Hin. lia.
    + apply NoDup_singleton.
  - apply Forall_app. split.
    + eapply Forall_impl; [exact Hle|]. simpl. intros. lia.
    + by repeat constructor.
Qed.

Create HintDb wf_dag discriminated.
#[export] Hint Resolve wf_empty wf_add_qreg wf_add_creg
  wf_apply_operation_back : wf_dag.

(** The graph that [run] builds is well formed. *)
Lemma rebuild_wf m d : wf_dag (rebuild m d).
Proof.
  unfold rebuild. rewrite add_qregs_eq, add_cregs_eq. simpl.
  assert (Hg : wf_dag (mkDAGCircuit (qregs d) (cregs d) 0 []))
    by (split; constructor).
  revert Hg. generalize (mkDAGCircuit (qregs d) (cregs d) 0 []).
  induction (topological_op_nodes d) as [|node nodes IH]; intros g Hg; [done|].
  simpl. apply IH. unfold rewrite_graph. case_bool_decide.
  - destruct (m !! node_id node); auto with wf_dag.
  - auto with wf_dag.
Qed.

(** The test circuits are built through the construction API. *)
Lemma wf_test_circuits :
  wf_dag dag_single ∧ wf_dag dag_twice ∧ wf_dag dag_blocked
  ∧ wf_dag dag_docstring.
Proof.
  unfold dag_single, dag_twice, dag_blocked, dag_docstring.
  split; [|split; [|split]]; auto 10 with wf_dag.
Qed.

Lemma node_ids_app l1 l2 : node_ids (l1 ++ l2) = node_ids l1 ∪ node_ids l2.
Proof. unfold node_ids. by rewrite fmap_app, list_to_set_app_L. Qed.

Lemma node_ids_cons B l : node_ids (B :: l) = {[ node_id B ]} ∪ node_ids l.
Proof. done. Qed.

Lemma node_ids_nil : node_ids [] = ∅.
Proof. done. Qed.

Lemma elem_of_node_ids n l : n ∈ node_ids l ↔ n ∈ node_id <$> l.
Proof. unfold node_ids. by rewrite elem_of_list_to_set. Qed.

Lemma node_ids_sublist l1 l2 : l1 `sublist_of` l2 → node_ids l1 ⊆ node_ids l2.
Proof.
  intros Hs n. rewrite !elem_of_node_ids. intros Hn.
  eapply elem_of_sublist; [exact Hn|]. by apply fmap_sublist.
Qed.

Lemma reach_subseteq ws l : reach ws l ⊆ node_ids l.
Proof.
  revert ws. induction l as [|m l IH]; intros ws; simpl; [set_solver|].
  change (m :: l) with ([m] ++ l). rewrite node_ids_app.
  destruct (touches ws m).
  - specialize (IH (node_wires m ++ ws)). unfold node_ids at 1. simpl.
    set_solver.
  - specialize (IH ws). set_solver.
Qed.

Lemma nodes_after_middle B l1 l2 :
  node_id B ∉ node_id <$> l1 →
  nodes_after (node_id B) (l1 ++ B :: l2) = l2.
Proof.
  induction l1 as [|x l1 IH]; simpl; intros Hn.
  - by rewrite decide_True.
  - rewrite decide_False; [apply IH|]; set_solver.
Qed.

Lemma NoDup_ids_middle (a : DAGNode) l1 l2 :
  NoDup (node_id <$> l1 ++ a :: l2) →
  (node_id a ∉ node_id <$> l1) ∧ (node_id a ∉ node_id <$> l2).
Proof.
  rewrite fmap_app, fmap_cons. intros (_ & Hl & [Hr _]%NoDup_cons)%NoDup_app.
  split; [|done]. intros Hin. apply (Hl _ Hin). set_solver.
Qed.

Lemma nodes_after_found a l1 l2 :
  NoDup (node_id <$> l1 ++ a :: l2) →
  nodes_after (node_id a) (l1 ++ a :: l2) = l2.
Proof.
  intros Hnd. apply nodes_after_middle. by apply NoDup_ids_middle in Hnd as [? _].
Qed.

(** In a graph with unique handles the ancestors of a node come before it
    and its descendants after it. *)
Lemma ancestors_before d B l1 l2 :
  NoDup (node_id <$> op_nodes d) → op_nodes d = l1 ++ B :: l2 →
  ancestors d B ⊆ node_ids l1.
Proof.
  intros Hnd Heq. unfold ancestors.
  assert (Hrev : reverse (op_nodes d) = reverse l2 ++ B :: reverse l1).
  { by rewrite Heq, reverse_app, reverse_cons, <- app_assoc. }
  rewrite Hrev, nodes_after_found.
  - etrans; [apply reach_subseteq|]. intros n.
    by rewrite !elem_of_node_ids, fmap_reverse, elem_of_reverse.
  - by rewrite <- Hrev, fmap_reverse, reverse_Permutation.
Qed.

Lemma descendants_after d B l1 l2 :
  NoDup (node_id <$> op_nodes d) → op_nodes d = l1 ++ B :: l2 →
  descendants d B ⊆ node_ids l2.
Proof.
  intros Hnd Heq. unfold descendants. rewrite Heq in *.
  rewrite nodes_after_found by done. apply reach_subseteq.
Qed.

(** A marker is no ancestor of itself nor of a marker that follows it. *)
Lemma ancestors_sublist d B rest :
  NoDup (node_id <$> op_nodes d) → B :: rest `sublist_of` op_nodes d →
  ancestors d B ## {[ node_id B ]} ∪ node_ids rest.
Proof.
  intros Hnd (l1 & l2 & Heq & Hsub)%sublist_cons_l.
  pose proof (ancestors_before d B l1 l2 Hnd Heq) as Hanc.
  pose proof (node_ids_sublist _ _ Hsub) as Hrest.
  rewrite Heq, fmap_app, fmap_cons in Hnd.
  apply NoDup_app in Hnd as (_ & Hnd & _).
  intros n Hn1 Hn2. apply Hanc in Hn1. rewrite elem_of_node_ids in Hn1.
  apply (Hnd _ Hn1).
  rewrite <- fmap_cons, <- elem_of_node_ids, node_ids_cons. set_solver.
Qed.

(** * The reachability oracle computes the paths of the wire edges *)

Lemma touches_true ws x :
  touches ws x = true ↔ ∃ w, w ∈ ws ∧ w ∈ node_wires x.
Proof. unfold touches. by rewrite bool_decide_eq_true, Exists_exists. Qed.

Lemma touches_mono ws ws' x :
  ws ⊆ ws' → touches ws x = true → touches ws' x = true.
Proof. rewrite !touches_true. intros Hsub (w & Hw & Hx). eauto. Qed.

Lemma Reached_mono ws ws' l m :
  ws ⊆ ws' → Reached ws l m → Reached ws' l m.
Proof.
  intros Hsub Hr. revert ws' Hsub.
  induction Hr as [ws x l Ht|ws x l m _ IH|ws x l m Ht _ IH]; intros ws' Hsub.
  - apply Reached_here. by eapply touches_mono.
  - apply Reached_skip. by apply IH.
  - apply Reached_via; [by eapply touches_mono|]. apply IH. set_solver.
Qed.

Lemma Reached_skip_app ws l1 l2 m :
  Reached ws l2 m → Reached ws (l1 ++ l2) m.
Proof. induction l1; simpl; [done|]. intros. by apply Reached_skip, IHl1. Qed.

Lemma reach_mono ws ws' l : ws ⊆ ws' → reach ws l ⊆ reach ws' l.
Proof.
  revert ws ws'. induction l as [|x l IH]; intros ws ws' Hsub; simpl; [done|].
  destruct (touches ws x) eqn:E.
  - rewrite (touches_mono ws ws' x Hsub E).
    apply union_mono_l, IH. set_solver.
  - destruct (touches ws' x).
    + etrans; [apply (IH ws (node_wires x ++ ws'))|]; set_solver.
    + by apply IH.
Qed.

Lemma reach_Reached ws l n :
  n ∈ reach ws l ↔ ∃ m, node_id m = n ∧ Reached ws l m.
Proof.
  split.
  - revert ws. induction l as [|x l IH]; intros ws; simpl; [set_solver|].
    destruct (touches ws x) eqn:E.
    + rewrite elem_of_union, elem_of_singleton. intros [->|Hn].
      * exists x. split; [done|]. by apply Reached_here.
      * destruct (IH _ Hn) as (m & Hm & Hr). exists m. split; [done|].
        by apply Reached_via.
    + intros Hn. destruct (IH _ Hn) as (m & Hm & Hr). exists m.
      split; [done|]. by apply Reached_skip.
  - intros (m & <- & Hr).
    induction Hr as [ws x l Ht|ws x l m _ IH|ws x l m Ht _ IH]; simpl.
    + rewrite Ht. set_solver.
    + destruct (touches ws x); [|done].
      apply elem_of_union_r. revert IH. apply reach_mono. set_solver.
    + rewrite Ht. set_solver.
Qed.

(** What is reached from the wires of [a] is linked to [a] by a path. *)
Lemma Reached_linked (l : list DAGNode) (a : DAGNode) :
  ∀ ws rest m, Reached ws rest m →
  ∀ pre, l = pre ++ rest →
    (∀ w, w ∈ ws → ∃ s, s ∈ pre ∧ w ∈ node_wires s ∧ (s = a ∨ tc (linked l) a s)) →
    tc (linked l) a m.
Proof.
  assert (Hstep : ∀ ws x rest pre,
    l = pre ++ x :: rest → touches ws x = true →
    (∀ w, w ∈ ws → ∃ s, s ∈ pre ∧ w ∈ node_wires s ∧ (s = a ∨ tc (linked l) a s)) →
    tc (linked l) a x).
  { intros ws x rest pre Hl (w & Hw & Hx)%touches_true Hsrc.
    destruct (Hsrc w Hw) as (s & Hs & Hws & Has).
    assert (Hlink : linked l s x).
    { apply list_elem_of_split in Hs as (p1 & p2 & ->). split; [|by exists w].
      exists p1, p2, rest. by rewrite Hl, <- app_assoc. }
    destruct Has as [->|Has]; [by apply tc_once|by eapply tc_r]. }
  induction 1 as [ws x rest Ht|ws x rest m _ IH|ws x rest m Ht _ IH];
    intros pre Hl Hsrc.
  - by eapply Hstep.
  - apply (IH (pre ++ [x])); [by rewrite <- app_assoc|].
    intros w Hw. destruct (Hsrc w Hw) as (s & Hs & Hws & Has).
    exists s. split; [set_solver|done].
  - pose proof (Hstep ws x rest pre Hl Ht Hsrc) as Hx.
    apply (IH (pre ++ [x])); [by rewrite <- app_assoc|].
    intros w [Hw|Hw]%elem_of_app.
    + exists x. split; [set_solver|]. split; [done|by right].
    + destruct (Hsrc w Hw) as (s & Hs & Hws & Has).
      exists s. split; [set_solver|done].
Qed.

(** What is linked to [a] by a path is reached from the wires of [a]. *)
Lemma linked_Reached (l : list DAGNode) (a m : DAGNode) :
  NoDup (node_id <$> l) → tc (linked l) a m →
  Reached (node_wires a) (nodes_after (node_id a) l) m.
Proof.
  intros Hnd. induction 1 as [a m Hlink|a x m Hlink _ IH].
  - destruct Hlink as [(l1 & l2 & l3 & ->) (w & Hwa & Hwm)].
    rewrite nodes_after_found by done.
    apply Reached_skip_app, Reached_here, touches_true. eauto.
  - destruct Hlink as [(l1 & l2 & l3 & ->) (w & Hwa & Hwx)].
    assert (Hx : nodes_after (node_id x) (l1 ++ a :: l2 ++ x :: l3) = l3).
    { rewrite app_comm_cons, app_assoc. apply nodes_after_found.
      by rewrite <- app_assoc, <- app_comm_cons. }
    rewrite Hx in IH. rewrite nodes_after_found by done.
    apply Reached_skip_app, Reached_via; [apply touches_true; eauto|].
    revert IH. apply Reached_mono. set_solver.
Qed.

(** The sweep from a node of a list with unique handles collects the nodes
    linked to it by a path. *)
Lemma reach_linked (l : list DAGNode) (a : DAGNode) (n : nat) :
  NoDup (node_id <$> l) → a ∈ l →
  n ∈ reach (node_wires a) (nodes_after (node_id a) l)
  ↔ ∃ m, node_id m = n ∧ tc (linked l) a m.
Proof.
  intros Hnd Ha. rewrite reach_Reached. split; intros (m & Hm & Hr); exists m.
  - split; [done|]. apply list_elem_of_split in Ha as (pre & post & ->).
    rewrite nodes_after_found in Hr by done.
    apply (Reached_linked _ a _ _ _ Hr (pre ++ [a])); [by rewrite <- app_assoc|].
    intros w Hw. exists a. split; [set_solver|]. split; [done|by left].
  - split; [done|]. by apply linked_Reached.
Qed.

Lemma filter_split {A} (P : A → Prop) `{∀ x, Decision (P x)} (l k1 k2 : list A) a :
  filter P l = k1 ++ a :: k2 →
  ∃ l1 l2, l = l1 ++ a :: l2 ∧ filter P l1 = k1 ∧ filter P l2 = k2 ∧ P a.
Proof.
  revert k1. induction l as [|x l IH]; intros k1 Heq.
  - by destruct k1.
  - rewrite filter_cons in Heq. destruct (decide (P x)) as [Hx|Hx].
    + destruct k1 as [|y k1]; simplify_eq/=.
      * exists [], l. by rewrite filter_nil.
      * destruct (IH _ H1) as (l1 & l2 & -> & Hl1 & Hl2 & Ha).
        exists (y :: l1), l2. rewrite filter_cons_True by done.
        by rewrite Hl1.
    + destruct (IH _ Heq) as (l1 & l2 & -> & Hl1 & Hl2 & Ha).
      exists (x :: l1), l2. by rewrite filter_cons_False.
Qed.

Lemma wire_edge_linked d a b : wire_edge d a b → linked (op_nodes d) a b.
Proof.
  intros (w & k1 & k2 & Hw). unfold wire in Hw.
  apply filter_split in Hw as (l1 & l2 & Hl & _ & Hk & Ha).
  apply (filter_split _ _ []) in Hk as (l2a & l2b & -> & _ & _ & Hb).
  split; [by exists l1, l2a, l2b|by exists w].
Qed.

Lemma wire_chain d w b post k :
  ∀ pre a, wire d w = pre ++ a :: k ++ b :: post → tc (wire_edge d) a b.
Proof.
  induction k as [|x k IH]; intros pre a Hw.
  - apply tc_once. by exists w, pre, post.
  - eapply tc_l.
    + exists w, pre, (k ++ b :: post). exact Hw.
    + apply (IH (pre ++ [a])). by rewrite <- app_assoc.
Qed.

Lemma linked_wire_path d a b :
  linked (op_nodes d) a b → tc (wire_edge d) a b.
Proof.
  intros [(l1 & l2 & l3 & Hl) (w & Ha & Hb)].
  apply (wire_chain d w b (wire (mkDAGCircuit [] [] 0 l3) w)
           (wire (mkDAGCircuit [] [] 0 l2) w)
           (wire (mkDAGCircuit [] [] 0 l1) w)).
  unfold wire. rewrite Hl. simpl.
  rewrite filter_app, filter_cons_True, filter_app, filter_cons_True by done.
  done.
Qed.

Lemma tc_wire_linked d a b :
  tc (wire_edge d) a b ↔ tc (linked (op_nodes d)) a b.
Proof.
  split.
  - induction 1 as [a b He|a x b He _ IH].
    + by apply tc_once, wire_edge_linked.
    + eapply tc_l; [by apply wire_edge_linked|done].
  - induction 1 as [a b Hl|a x b Hl _ IH].
    + by apply linked_wire_path.
    + etrans; [by apply linked_wire_path|done].
Qed.



(** The oracle agrees with the specification: in a well-formed graph the
    set computed for a node holds the handles of the nodes reachable from it,
    respectively of the nodes with a path to it, along the wire edges. *)
Lemma descendants_spec d nd n :
  wf_dag d → nd ∈ op_nodes d →
  n ∈ descendants d nd ↔ ∃ m, node_id m = n ∧ Descendants d nd m.
Proof.
  intros [Hnd _] Hin. unfold descendants, Descendants.
  rewrite reach_linked by done. by setoid_rewrite tc_wire_linked.
Qed.


(** A node is neither its own ancestor nor its own descendant. *)
Lemma oracle_excludes_query d nd :
  wf_dag d → nd ∈ op_nodes d →
  (node_id nd ∉ ancestors d nd) ∧ (node_id nd ∉ descendants d nd).
Proof.
  intros [Hnd _] (l1 & l2 & Hl)%list_elem_of_split.
  pose proof (ancestors_before d nd l1 l2 Hnd Hl) as Ha.
  pose proof (descendants_after d nd l1 l2 Hnd Hl) as Hd.
  rewrite Hl in Hnd. apply NoDup_ids_middle in Hnd as [Hl1 Hl2].
  split; intros Hin; [apply Ha in Hin|apply Hd in Hin];
    by apply elem_of_node_ids in Hin.
Qed.

(** The graph is acyclic: no node has a path to itself. *)
Lemma wf_acyclic d nd : wf_dag d → ¬ tc (wire_edge d) nd nd.
Proof.
  intros Hwf Hcyc.
  assert (Hin : nd ∈ op_nodes d).
  { apply tc_wire_linked in Hcyc. inversion Hcyc as [? ? Hl|? ? ? Hl _]; subst;
      destruct Hl as [(l1 & l2 & l3 & ->) _]; set_solver. }
  destruct (oracle_excludes_query d nd Hwf Hin) as [_ Hd].
  apply Hd, descendants_spec; [done..|]. by exists nd.
Qed.

(** ** C2 *)

(** The union ancestor set holds neither a member of the group nor a marker
    that is still to come. *)
Lemma ancestors_step_pruned d G B rest :
  NoDup (node_id <$> op_nodes d) → B :: rest `sublist_of` op_nodes d →
  current_ancestors G ## node_ids (current_barrier_nodes G) ∪ node_ids (B :: rest) →
  let G' := collect_step d G B in
  current_ancestors G' ## node_ids (current_barrier_nodes G') ∪ node_ids rest.
Proof.
  intros Hnd Hsub HG. pose proof (ancestors_sublist d B rest Hnd Hsub) as HB.
  rewrite node_ids_cons in HG.
  unfold collect_step, next_ancestors. rewrite pruned_eq.
  destruct (can_merge d G B); simpl.
  - rewrite node_ids_app, node_ids_cons, node_ids_nil. set_solver.
  - rewrite node_ids_cons, node_ids_nil. set_solver.
Qed.

Lemma ancestors_loop_pruned d G bs rest :
  NoDup (node_id <$> op_nodes d) → bs ++ rest `sublist_of` op_nodes d →
  current_ancestors G ## node_ids (current_barrier_nodes G) ∪ node_ids (bs ++ rest) →
  let G' := collect_loop d G bs in
  current_ancestors G' ## node_ids (current_barrier_nodes G') ∪ node_ids rest.
Proof.
  intros Hnd. revert G. induction bs as [|B bs IH]; intros G Hsub HG; simpl in *.
  - done.
  - apply IH.
    + apply sublist_cons_l in Hsub as (l1 & l2 & -> & Hsub).
      by apply sublist_inserts_l, sublist_cons.
    + by apply ancestors_step_pruned.
Qed.

Lemma can_merge_prune_group d st B :
  can_merge d (prune_group st) B = can_merge d st B.
Proof.
  unfold can_merge, isdisjoint, next_descendants, next_ancestors. simpl.
  rewrite !pruned_eq. f_equal; [f_equal|]; apply bool_decide_ext; set_solver.
Qed.

(** C2 as stated fails already at the first absorption in
    [barrier(q0); barrier(q0)]: the second marker is absorbed and is then a
    member of the group and an element of the group's union descendant set. *)
Lemma C2_counterexample :
  let b1 := mkDAGNode 1 (Barrier 1) [q 0] [] None in
  let b2 := mkDAGNode 2 (Barrier 1) [q 0] [] None in
  barriers_of dag_twice = [b1; b2]
  ∧ can_merge dag_twice (collect_init dag_twice b1) b2 = true
  ∧ ¬ group_sets_pruned (collect_step dag_twice (collect_init dag_twice b1) b2).
Proof.
  intros b1 b2. split; [by vm_compute|]. split; [by vm_compute|].
  intros Hp. destruct (Hp b2) as [_ Hd].
  - by_evaluation.
  - apply Hd. by_evaluation.
Qed.

(** C2, amended. When the marker [B] of a well-formed graph is absorbed, its
    ancestor and descendant sets, without the nodes that were members of the
    group before [B], are united into the group's union sets. After the step
    the union ancestor set holds no member of the group. The union descendant
    set is not pruned again and may hold members, and every later test comes
    out as it would with both union sets pruned of all members. *)
Theorem C2_union_sets_after_absorption
    (d : DAGCircuit) (b0 : DAGNode) (bs : list DAGNode) (B : DAGNode)
    (rest : list DAGNode) :
  wf_dag d →
  barriers_of d = b0 :: bs ++ B :: rest →
  let G := collect_loop d (collect_init d b0) bs in
  let G' := collect_step d G B in
  can_merge d G B = true →
  current_barrier_nodes G' = current_barrier_nodes G ++ [B]
  ∧ current_ancestors G'
      = current_ancestors G ∪ (ancestors d B ∖ node_ids (current_barrier_nodes G))
  ∧ current_descendants G'
      = current_descendants G ∪ (descendants d B ∖ node_ids (current_barrier_nodes G))
  ∧ (∀ m, m ∈ current_barrier_nodes G' → node_id m ∉ current_ancestors G')
  ∧ (∀ B', can_merge d (prune_group G') B' = can_merge d G' B').
Proof.
  intros [Hnd _] Hbars G G' Hcm.
  assert (Hsub : b0 :: bs ++ B :: rest `sublist_of` op_nodes d).
  { rewrite <- Hbars. apply sublist_filter. }
  assert (HG : current_ancestors G
               ## node_ids (current_barrier_nodes G) ∪ node_ids (B :: rest)).
  { apply ancestors_loop_pruned; [done| |].
    - apply sublist_cons_l in Hsub as (l1 & l2 & -> & Hsub).
      by apply sublist_inserts_l, sublist_cons.
    - pose proof (ancestors_sublist d b0 _ Hnd Hsub) as H0. simpl.
      rewrite node_ids_cons, node_ids_nil. set_solver. }
  assert (HG' : current_ancestors G'
                ## node_ids (current_barrier_nodes G') ∪ node_ids rest).
  { apply ancestors_step_pruned; [done| |done].
    apply sublist_cons_l in Hsub as (l1 & l2 & -> & Hsub).
    apply sublist_inserts_l, sublist_cons.
    apply sublist_app_l in Hsub as (k1 & k2 & -> & _ & Hsub).
    by apply sublist_inserts_l. }
  split; [|split; [|split; [|split]]].
  - subst G'. unfold collect_step. by rewrite Hcm.
  - subst G'. unfold collect_step, next_ancestors. by rewrite Hcm, pruned_eq.
  - subst G'. unfold collect_step, next_descendants. by rewrite Hcm, pruned_eq.
  - intros m Hm Hin. apply (HG' (node_id m)); [done|].
    apply elem_of_union_l, elem_of_node_ids, list_elem_of_fmap. eauto.
  - intros B'. apply can_merge_prune_group.
Qed.

(** [barrier(q0); barrier(q0)] is an instance. *)
Lemma C2_union_sets_after_absorption_witness :
  let b1 := mkDAGNode 1 (Barrier 1) [q 0] [] None in
  let b2 := mkDAGNode 2 (Barrier 1) [q 0] [] None in
  let G' := collect_step dag_twice (collect_init dag_twice b1) b2 in
  current_barrier_nodes G' = [b1; b2]
  ∧ ∀ m, m ∈ current_barrier_nodes G' → node_id m ∉ current_ancestors G'.
Proof.
  intros b1 b2 G'.
  assert (Hwf : wf_dag dag_twice) by by_evaluation.
  destruct (C2_union_sets_after_absorption dag_twice b1 [] b2 [] Hwf
              eq_refl eq_refl) as (Hm & _ & _ & Hanc & _).
  split; [exact Hm | exact Hanc].
Defined.

(** * The merge groups *)

#[local] Arguments collect_step : simpl never.
#[local] Arguments can_merge : simpl never.

Section merge_groups.
Context (dag : DAGCircuit).
Implicit Types (st c : Collector) (B : DAGNode) (rest : list DAGNode).

Lemma closings_inv st rest :
  group_inv st → Forall group_inv (closings dag st rest).
Proof.
  revert st. induction rest as [|B rest IH]; intros st Hst; simpl.
  - apply Forall_cons. split; [done|apply Forall_nil_2].
  - pose proof (collect_step_inv dag st B Hst) as Hst'.
    destruct (can_merge dag st B); [|constructor; [done|]]; by apply IH.
Qed.

Lemma collect_step_members st B :
  current_barrier_nodes (collect_step dag st B)
  = if can_merge dag st B then current_barrier_nodes st ++ [B] else [B].
Proof. unfold collect_step. by destruct (can_merge dag st B). Qed.

Lemma collect_step_mapping st B :
  node_to_barrier_qubits (collect_step dag st B)
  = if can_merge dag st B then node_to_barrier_qubits st
    else store_entry (node_to_barrier_qubits st) st.
Proof. unfold collect_step. by destruct (can_merge dag st B). Qed.

(** The groups are consecutive segments of the marker list. *)
Lemma closings_concat st rest :
  concat (current_barrier_nodes <$> closings dag st rest)
  = current_barrier_nodes st ++ rest.
Proof.
  revert st. induction rest as [|B rest IH]; intros st; simpl.
  - done.
  - specialize (IH (collect_step dag st B)).
    rewrite collect_step_members in IH.
    destruct (can_merge dag st B) eqn:E; simpl.
    + rewrite IH. by rewrite <- app_assoc.
    + f_equal. exact IH.
Qed.

(** The mapping returned is the one built by the stores at the closings. *)
Lemma closings_store st rest :
  store_barrier (collect_loop dag st rest)
  = foldl store_entry (node_to_barrier_qubits st) (closings dag st rest).
Proof.
  revert st. induction rest as [|B rest IH]; intros st; simpl.
  - done.
  - rewrite IH, collect_step_mapping.
    by destruct (can_merge dag st B) eqn:E.
Qed.

Lemma foldl_store_entry_ne m cs k :
  k ∉ (node_id ∘ end_of_barrier) <$> cs →
  foldl store_entry m cs !! k = m !! k.
Proof.
  revert m. induction cs as [|c cs IH]; intros m Hk; simpl; [done|].
  rewrite IH by set_solver. unfold store_entry.
  rewrite lookup_insert_ne; [done|]. set_solver.
Qed.

(** The anchors of a list of closed groups are among their members. *)
Lemma anchors_subseteq (cs : list Collector) :
  Forall group_inv cs →
  (node_id ∘ end_of_barrier) <$> cs
    ⊆ node_id <$> concat (current_barrier_nodes <$> cs).
Proof.
  induction 1 as [|c cs [Hl _] _ IH]; simpl; [done|].
  intros k. rewrite elem_of_cons, fmap_app, elem_of_app. intros [->|Hk].
  - left. apply list_elem_of_fmap. eexists. split; [done|].
    by apply last_Some_elem_of.
  - right. by apply IH.
Qed.

(** With unique handles, every closed group is found in the mapping under the
    handle of its anchor, with the group's qubit set. *)
Lemma closings_lookup rest st m0 c :
  group_inv st →
  NoDup (node_id <$> current_barrier_nodes st ++ rest) →
  c ∈ closings dag st rest →
  foldl store_entry m0 (closings dag st rest) !! node_id (end_of_barrier c)
  = Some (current_qubits c).
Proof.
  revert st m0. induction rest as [|B rest IH]; intros st m0 Hst Hnd Hc; simpl in *.
  - apply list_elem_of_singleton in Hc as ->. unfold store_entry.
    by rewrite lookup_insert_eq.
  - pose proof (collect_step_inv dag st B Hst) as Hst'.
    pose proof (closings_concat (collect_step dag st B) rest) as Hcat.
    rewrite collect_step_members in Hcat.
    assert (Hnd1 : NoDup (node_id <$>
              current_barrier_nodes (collect_step dag st B) ++ rest)).
    { rewrite collect_step_members. destruct (can_merge dag st B).
      - by rewrite <- app_assoc.
      - rewrite fmap_app in Hnd. by apply NoDup_app in Hnd as (_ & _ & Hnd). }
    destruct (can_merge dag st B) eqn:E; simpl in *.
    + by apply IH.
    + apply elem_of_cons in Hc as [->|Hc]; [|by apply IH].
      rewrite foldl_store_entry_ne.
      * unfold store_entry. by rewrite lookup_insert_eq.
      * intros Hk. eapply anchors_subseteq in Hk; [|by apply closings_inv].
        rewrite Hcat in Hk. simpl in Hk.
        rewrite fmap_app in Hnd. apply NoDup_app in Hnd as (_ & Hnd & _).
        apply (Hnd (node_id (end_of_barrier st))); [|done].
        apply list_elem_of_fmap. eexists. split; [done|].
        apply last_Some_elem_of, Hst.
Qed.

(** The collector returns a mapping exactly for two markers or more. *)
Lemma collect_two b0 b1 bs :
  _collect_potential_merges dag (b0 :: b1 :: bs)
  = Some (foldl store_entry ∅ (closings dag (collect_init dag b0) (b1 :: bs))).
Proof.
  unfold _collect_potential_merges.
  rewrite bool_decide_eq_false_2 by (simpl; lia).
  by rewrite closings_store.
Qed.

Lemma foldl_store_entry_nonempty m cs :
  cs ≠ [] → foldl store_entry m cs ≠ ∅.
Proof.
  revert m. induction cs as [|c cs IH]; intros m Hne; [done|]. simpl.
  destruct cs as [|c' cs'].
  - simpl. unfold store_entry. apply insert_non_empty.
  - apply IH. done.
Qed.

Lemma closings_nonempty st rest : closings dag st rest ≠ [].
Proof.
  revert st. induction rest as [|B rest IH]; intros st; simpl; [done|].
  destruct (can_merge dag st B); [apply IH|done].
Qed.

(** The last store is made in the state the loop ends in. *)
Lemma closings_last st rest :
  last (closings dag st rest) = Some (collect_loop dag st rest).
Proof.
  revert st. induction rest as [|B rest IH]; intros st; simpl; [done|].
  destruct (can_merge dag st B); [apply IH|].
  rewrite last_cons, IH. done.
Qed.

(** An entry is stored in a state the loop reaches, and only when no marker
    is left or the next one fails the test. *)
Lemma closings_reached st rest c :
  c ∈ closings dag st rest →
  ∃ done todo,
    rest = done ++ todo
    ∧ c = collect_loop dag st done
    ∧ ∀ B todo', todo = B :: todo' → can_merge dag c B = false.
Proof.
  revert st. induction rest as [|B rest IH]; intros st; simpl.
  - intros ->%list_elem_of_singleton. by exists [], [].
  - assert (Hlater : c ∈ closings dag (collect_step dag st B) rest →
      ∃ done todo, B :: rest = done ++ todo
        ∧ c = collect_loop dag st done
        ∧ ∀ B' todo', todo = B' :: todo' → can_merge dag c B' = false).
    { intros (done & todo & -> & -> & Hnext)%IH.
      by exists (B :: done), todo. }
    destruct (can_merge dag st B) eqn:E; [done|].
    intros [->|Hc]%elem_of_cons; [|auto].
    exists [], (B :: rest). split; [done|]. split; [done|].
    intros B' todo' Heq. by assert (B' = B) as -> by congruence.
Qed.

(** The members of the state the loop is in are the markers it processed
    last. *)
Lemma collect_loop_members_run st done :
  ∃ before,
    current_barrier_nodes st ++ done
    = before ++ current_barrier_nodes (collect_loop dag st done).
Proof.
  revert st. induction done as [|B done IH]; intros st.
  - exists []. by rewrite app_nil_r.
  - destruct (IH (collect_step dag st B)) as [before Hrun].
    change (collect_loop dag st (B :: done))
      with (collect_loop dag (collect_step dag st B) done).
    rewrite collect_step_members in Hrun.
    destruct (can_merge dag st B).
    + exists before. by rewrite <- Hrun, <- app_assoc.
    + exists (current_barrier_nodes st ++ before).
      by rewrite <- app_assoc, <- Hrun.
Qed.

(** A group of several members got its last member by absorption: the
    member is the marker processed last, and it passed the test against the
    state that held the members before it. *)
Lemma collect_loop_last_absorbed b0 done g a :
  current_barrier_nodes (collect_loop dag (collect_init dag b0) done) = g ++ [a] →
  g ≠ [] →
  ∃ done',
    done = done' ++ [a]
    ∧ current_barrier_nodes (collect_loop dag (collect_init dag b0) done') = g
    ∧ can_merge dag (collect_loop dag (collect_init dag b0) done') a = true.
Proof.
  destruct done as [|x done' _] using rev_ind.
  - intros Hg Hne. destruct g as [|y [|z g]]; [done|..]; discriminate.
  - unfold collect_loop at 1. rewrite foldl_app. simpl.
    fold (collect_loop dag (collect_init dag b0) done').
    rewrite collect_step_members.
    destruct (can_merge dag (collect_loop dag (collect_init dag b0) done') x)
      eqn:E.
    + intros [Hg ->]%app_inj_tail _. by exists done'.
    + intros Hg Hne. destruct g as [|y [|z g]]; [done|..]; discriminate.
Qed.

(** Every state in which an entry is stored closes a group in the sense of
    [group_closed]. *)
Lemma closings_group_closed b0 rest c :
  c ∈ closings dag (collect_init dag b0) rest →
  ∃ done todo, rest = done ++ todo ∧ group_closed dag b0 done todo c.
Proof.
  intros (done & todo & -> & -> & Hnext)%closings_reached.
  exists done, todo. split; [done|]. split; [done|]. split; [done|]. split.
  - apply (collect_loop_members_run (collect_init dag b0) done).
  - intros g a. apply collect_loop_last_absorbed.
Qed.

End merge_groups.

(** A segment of a sublist that ends with [x] lies before [x] in the list. *)
Lemma segment_before (x : DAGNode) (before g after pre post : list DAGNode) :
  NoDup (pre ++ x :: post) →
  (before ++ g) ++ x :: after `sublist_of` pre ++ x :: post →
  ∀ y, y ∈ g → y ∈ pre.
Proof.
  intros Hnd (k1 & k2 & Heq & Hs1 & Hs2)%sublist_app_l y Hy.
  assert (Hy1 : y ∈ k1).
  { eapply elem_of_sublist; [|exact Hs1]. set_solver. }
  assert (Hx2 : x ∈ k2).
  { eapply elem_of_sublist; [|exact Hs2]. set_solver. }
  apply app_eq_inv in Heq as [(k & -> & _)|(k & -> & Hk)]; [set_solver|].
  destruct k as [|x' k]; [by rewrite app_nil_r in Hy1|].
  simplify_list_eq. apply NoDup_app in Hnd as (_ & _ & Hnd).
  apply NoDup_cons in Hnd as [Hnd _]. set_solver.
Qed.

(** Every merge group of a well-formed graph ends with its anchor, and its
    members are met in the walk no later than the anchor. *)
Lemma group_in_walk d b0 bs c :
  wf_dag d → barriers_of d = b0 :: bs →
  c ∈ closings d (collect_init d b0) bs →
  ∃ pre post,
    topological_op_nodes d = pre ++ end_of_barrier c :: post
    ∧ name (end_of_barrier c) = "barrier"%string
    ∧ ∀ x, x ∈ current_barrier_nodes c → x ∈ pre ++ [end_of_barrier c].
Proof.
  intros [Hnd _] Hbars Hc. apply NoDup_fmap_1 in Hnd.
  pose proof (closings_inv d _ bs (collect_init_inv d b0)) as Hinv.
  rewrite Forall_forall in Hinv. destruct (Hinv c Hc) as [Hlast _].
  apply last_Some in Hlast as [g Hg].
  pose proof (closings_concat d (collect_init d b0) bs) as Hcat.
  change (current_barrier_nodes (collect_init d b0) ++ bs) with (b0 :: bs) in Hcat.
  apply list_elem_of_split in Hc as (cs1 & cs2 & Hcs).
  rewrite Hcs, fmap_app, fmap_cons, concat_app in Hcat. simpl in Hcat.
  rewrite Hg, <- Hbars, <- !app_assoc in Hcat. simpl in Hcat.
  assert (Hin : end_of_barrier c ∈ barriers_of d).
  { rewrite <- Hcat. set_solver. }
  apply list_elem_of_filter in Hin as [Hname Hin].
  apply list_elem_of_split in Hin as (pre & post & Hsplit).
  exists pre, post. split; [done|]. split; [done|].
  intros x. rewrite Hg, !elem_of_app. intros [Hx|Hx]; [left|by right].
  unfold topological_op_nodes in *.
  eapply (segment_before (end_of_barrier c) _ g); [by rewrite <- Hsplit| |done].
  rewrite <- Hsplit, <- app_assoc. rewrite Hcat. apply sublist_filter.
Qed.

(** With two markers or more [run] builds a new graph from the mapping made
    of the entries of the merge groups. *)
Lemma run_two h r d b0 b1 bs :
  h !! r = Some d → barriers_of d = b0 :: b1 :: bs →
  let m := foldl store_entry ∅ (closings d (collect_init d b0) (b1 :: bs)) in
  _collect_potential_merges d (barriers_of d) = Some m
  ∧ m ≠ ∅
  ∧ run h r = Some (h ++ [rebuild m d], length h).
Proof.
  intros Hr Hbars m.
  assert (Hm : m ≠ ∅) by apply foldl_store_entry_nonempty, closings_nonempty.
  rewrite (run_eq h r d Hr), Hbars, collect_two. fold m.
  by rewrite bool_decide_eq_false_2.
Qed.

(** The collapsed marker of a merge group in the output of [run]. *)
Lemma group_marker h r d b0 b1 bs c :
  h !! r = Some d → wf_dag d → barriers_of d = b0 :: b1 :: bs →
  c ∈ closings d (collect_init d b0) (b1 :: bs) →
  ∃ m pre post out,
    _collect_potential_merges d (barriers_of d) = Some m
    ∧ run h r = Some (h ++ [out], length h)
    ∧ last (current_barrier_nodes c) = Some (end_of_barrier c)
    ∧ current_qubits c = group_qubits (current_barrier_nodes c)
    ∧ m !! node_id (end_of_barrier c) = Some (current_qubits c)
    ∧ topological_op_nodes d = pre ++ end_of_barrier c :: post
    ∧ (∀ x, x ∈ current_barrier_nodes c → x ∈ pre ++ [end_of_barrier c])
    ∧ payload <$> op_nodes out
      = (pre ≫= emit m) ++ collapsed_marker (current_qubits c) :: (post ≫= emit m).
Proof.
  intros Hr Hwf Hbars Hc.
  destruct (run_two h r d b0 b1 bs Hr Hbars) as (Hm & _ & Hrun).
  destruct (group_in_walk d b0 (b1 :: bs) c Hwf Hbars Hc)
    as (pre & post & Hsplit & Hname & Hmem).
  pose proof (closings_inv d _ (b1 :: bs) (collect_init_inv d b0)) as Hinv.
  rewrite Forall_forall in Hinv. destruct (Hinv c Hc) as [Hlast Hq].
  assert (Hlook : foldl store_entry ∅ (closings d (collect_init d b0) (b1 :: bs))
                    !! node_id (end_of_barrier c) = Some (current_qubits c)).
  { apply closings_lookup; [apply collect_init_inv| |done].
    change (current_barrier_nodes (collect_init d b0) ++ b1 :: bs)
      with (b0 :: b1 :: bs).
    rewrite <- Hbars.
    apply (sublist_NoDup _ (node_id <$> op_nodes d)); [apply (proj1 Hwf)|].
    apply fmap_sublist, sublist_filter. }
  eexists _, pre, post, _. repeat split; try done.
  destruct (rebuild_spec
    (foldl store_entry ∅ (closings d (collect_init d b0) (b1 :: bs))) d)
    as (_ & _ & ->).
  rewrite Hsplit, bind_app, bind_cons. f_equal. f_equal.
  unfold emit. by rewrite bool_decide_eq_true_2, Hlook.
Qed.

Lemma foldl_store_entry_dom m cs :
  dom (foldl store_entry m cs)
  = dom m ∪ list_to_set ((node_id ∘ end_of_barrier) <$> cs).
Proof.
  revert m. induction cs as [|c cs IH]; intros m; simpl; [set_solver|].
  rewrite IH. unfold store_entry. rewrite dom_insert_L. set_solver.
Qed.

(** A member of a merge group other than the anchor is no key of the mapping,
    and the rewriter appends nothing for it. *)
Lemma absorbed_member_dropped d b0 b1 bs c x m :
  wf_dag d → barriers_of d = b0 :: b1 :: bs →
  _collect_potential_merges d (barriers_of d) = Some m →
  c ∈ closings d (collect_init d b0) (b1 :: bs) →
  x ∈ current_barrier_nodes c → x ≠ end_of_barrier c →
  m !! node_id x = None ∧ emit m x = [].
Proof.
  intros [Hnd _] Hbars Hm Hc Hx Hne.
  rewrite Hbars, collect_two in Hm.
  assert (m = foldl store_entry ∅ (closings d (collect_init d b0) (b1 :: bs)))
    as -> by congruence.
  clear Hm.
  pose proof (closings_inv d _ (b1 :: bs) (collect_init_inv d b0)) as Hinv.
  pose proof (closings_concat d (collect_init d b0) (b1 :: bs)) as Hcat.
  change (current_barrier_nodes (collect_init d b0) ++ b1 :: bs)
    with (b0 :: b1 :: bs) in Hcat.
  assert (Hids : NoDup (node_id <$> b0 :: b1 :: bs)).
  { rewrite <- Hbars. apply (sublist_NoDup _ (node_id <$> op_nodes d)); [done|].
    apply fmap_sublist, sublist_filter. }
  apply list_elem_of_split in Hc as (cs1 & cs2 & Hcs).
  rewrite Hcs in Hinv, Hcat |- *.
  apply Forall_app in Hinv as [Hinv1 Hinv2].
  apply Forall_cons in Hinv2 as [[Hlast _] Hinv2].
  apply last_Some in Hlast as [g Hg]. rewrite Hg in Hx.
  assert (Hxg : x ∈ g) by set_solver.
  assert (Hname : name x = "barrier"%string).
  { assert (Hin : x ∈ barriers_of d).
    { rewrite Hbars, <- Hcat, fmap_app, fmap_cons, concat_app. simpl.
      rewrite Hg. set_solver. }
    by apply list_elem_of_filter in Hin as [? _]. }
  apply anchors_subseteq in Hinv1, Hinv2.
  rewrite <- Hcat, fmap_app, fmap_cons, concat_app in Hids. simpl in Hids.
  rewrite Hg, !fmap_app in Hids. simpl in Hids.
  apply NoDup_app in Hids as (_ & Hd1 & Hids).
  rewrite <- app_assoc in Hids. apply NoDup_app in Hids as (_ & Hd2 & _).
  assert (Hidx : node_id x ∈ node_id <$> g) by (apply list_elem_of_fmap; eauto).
  assert (Hnone : foldl store_entry ∅ (cs1 ++ c :: cs2) !! node_id x = None).
  { apply not_elem_of_dom. rewrite foldl_store_entry_dom, dom_empty_L.
    rewrite fmap_app, fmap_cons, list_to_set_app_L, list_to_set_cons.
    rewrite !elem_of_union, !elem_of_list_to_set, elem_of_singleton.
    intros [[]%not_elem_of_empty|[Hk|[Hk|Hk]]].
    - apply Hinv1 in Hk. apply (Hd1 _ Hk). set_solver.
    - apply (Hd2 _ Hidx), elem_of_app. left. by apply list_elem_of_singleton.
    - apply Hinv2 in Hk. apply (Hd2 _ Hidx). set_solver. }
  split; [done|]. unfold emit. by rewrite Hnone, bool_decide_eq_true_2.
Qed.

(** ** C4 *)

(** C4. For every merge group of a well-formed graph with two markers or
    more. The groups split the list of markers into consecutive runs. The
    group is closed in the state the loop is in after some markers [done] of
    the list, when no marker is left or the next one fails the test; its
    members are the markers processed last; and when it has several members,
    its last member is the marker processed last and was absorbed, that is,
    it passed the test against the members before it. The last member is the
    anchor: the mapping holds the group's qubit set under its handle; every
    member is met in the topological walk no later than the anchor; and the
    output of [run] is what the rewriter appends for the nodes before the
    anchor, then the collapsed marker of the group, then what it appends for
    the nodes after the anchor. *)
Theorem C4_anchor_is_last_member
    (h : Heap) (r : nat) (d : DAGCircuit) (b0 b1 : DAGNode)
    (bs : list DAGNode) (c : Collector) :
  h !! r = Some d → wf_dag d → barriers_of d = b0 :: b1 :: bs →
  c ∈ closings d (collect_init d b0) (b1 :: bs) →
  ∃ m anchor pre post out done todo,
    _collect_potential_merges d (barriers_of d) = Some m
    ∧ run h r = Some (h ++ [out], length h)
    ∧ concat (current_barrier_nodes
                <$> closings d (collect_init d b0) (b1 :: bs))
      = barriers_of d
    ∧ b1 :: bs = done ++ todo
    ∧ group_closed d b0 done todo c
    ∧ last (current_barrier_nodes c) = Some anchor
    ∧ end_of_barrier c = anchor
    ∧ m !! node_id anchor = Some (current_qubits c)
    ∧ topological_op_nodes d = pre ++ anchor :: post
    ∧ (∀ x, x ∈ current_barrier_nodes c → x ∈ pre ++ [anchor])
    ∧ payload <$> op_nodes out
      = (pre ≫= emit m) ++ collapsed_marker (current_qubits c) :: (post ≫= emit m).
Proof.
  intros Hr Hwf Hbars Hc.
  destruct (group_marker h r d b0 b1 bs c Hr Hwf Hbars Hc)
    as (m & pre & post & out & Hm & Hrun & Hlast & _ & Hlook & Hsplit & Hmem & Hout).
  destruct (closings_group_closed d b0 (b1 :: bs) c Hc)
    as (done & todo & Hdone & Hclosed).
  exists m, (end_of_barrier c), pre, post, out, done, todo.
  split; [done|]. split; [done|]. split; [|done].
  by rewrite Hbars, closings_concat.
Qed.

(** ** C5 *)

(** C5. For every merge group of a well-formed graph with two markers or
    more. The groups split the list of markers into consecutive runs, and the
    group is closed, with the markers processed last as its members, in the
    sense of [group_closed]. The mapping holds, under the handle of the
    group's anchor, the union of the qubit sets of the members of the group;
    and the node that [run] appends at the anchor's position is a barrier
    without classical operands or condition whose qubit operands are, without
    repetition, that union, and whose width is the number of qubits in the
    union. *)
Theorem C5_collapsed_marker_operands
    (h : Heap) (r : nat) (d : DAGCircuit) (b0 b1 : DAGNode)
    (bs : list DAGNode) (c : Collector) :
  h !! r = Some d → wf_dag d → barriers_of d = b0 :: b1 :: bs →
  c ∈ closings d (collect_init d b0) (b1 :: bs) →
  let union := group_qubits (current_barrier_nodes c) in
  ∃ m pre post out o1 nd o2 done todo,
    _collect_potential_merges d (barriers_of d) = Some m
    ∧ run h r = Some (h ++ [out], length h)
    ∧ concat (current_barrier_nodes
                <$> closings d (collect_init d b0) (b1 :: bs))
      = barriers_of d
    ∧ b1 :: bs = done ++ todo
    ∧ group_closed d b0 done todo c
    ∧ current_qubits c = union
    ∧ m !! node_id (end_of_barrier c) = Some union
    ∧ topological_op_nodes d = pre ++ end_of_barrier c :: post
    ∧ op_nodes out = o1 ++ nd :: o2
    ∧ payload <$> o1 = pre ≫= emit m
    ∧ payload <$> o2 = post ≫= emit m
    ∧ op nd = Barrier (size union)
    ∧ list_to_set (qargs nd) = union
    ∧ NoDup (qargs nd)
    ∧ num_qubits (op nd) = size union
    ∧ length (qargs nd) = size union
    ∧ cargs nd = [] ∧ condition nd = None.
Proof.
  intros Hr Hwf Hbars Hc union.
  destruct (group_marker h r d b0 b1 bs c Hr Hwf Hbars Hc)
    as (m & pre & post & out & Hm & Hrun & _ & Hq & Hlook & Hsplit & _ & Hout).
  destruct (closings_group_closed d b0 (b1 :: bs) c Hc)
    as (done & todo & Hdone & Hclosed).
  apply fmap_app_inv in Hout as (o1 & o2' & Ho1 & Ho2 & Hops).
  symmetry in Ho2. apply fmap_cons_inv in Ho2 as (nd & o2 & Hnd & Ho2 & ->).
  fold union in Hq. rewrite Hq in Hnd, Hlook.
  unfold collapsed_marker, payload in Hnd.
  injection Hnd as Hop Hqargs Hcargs Hcond.
  exists m, pre, post, out, o1, nd, o2, done, todo. rewrite <- Hop, <- Hqargs.
  split; [done|]. split; [done|].
  split; [by rewrite Hbars, closings_concat|].
  repeat (split; [done|]).
  split; [apply list_to_set_elements_L|].
  split; [apply NoDup_elements|]. done.
Qed.

(** The circuit of the module docstring has the groups [[b0]] and
    [[b1; b2]]: the marker on [q1] opens the second group and the marker on
    the whole register is absorbed into it. The second group is the instance
    of C4 and of C5 below. *)
Ltac docstring_merged_group Hc :=
  lazymatch goal with
  | c := collect_loop ?d ?s0 [?b1; ?b2] |- _ =>
      assert (Hc : c ∈ closings d s0 [b1; b2]);
      [ simpl;
        replace (can_merge d s0 b1) with false by (by vm_compute);
        replace (can_merge d (collect_step d s0 b1) b2)
          with true by (by vm_compute);
        apply list_elem_of_further, list_elem_of_here
      | ]
  end.

Lemma C4_anchor_is_last_member_witness :
  let b0 := mkDAGNode 1 (Barrier 1) [q 0] [] None in
  let b1 := mkDAGNode 2 (Barrier 1) [q 1] [] None in
  let b2 := mkDAGNode 3 (Barrier 3) [q 0; q 1; q 2] [] None in
  let c := collect_loop dag_docstring (collect_init dag_docstring b0) [b1; b2] in
  current_barrier_nodes c = [b1; b2]
  ∧ end_of_barrier c = b2
  ∧ current_qubits c = {[ q 0; q 1; q 2 ]}
  ∧ ∃ m anchor pre post out done todo,
    _collect_potential_merges dag_docstring (barriers_of dag_docstring) = Some m
    ∧ run [dag_docstring] 0 = Some ([dag_docstring] ++ [out], 1)
    ∧ concat (current_barrier_nodes
                <$> closings dag_docstring (collect_init dag_docstring b0)
                      [b1; b2])
      = barriers_of dag_docstring
    ∧ [b1; b2] = done ++ todo
    ∧ group_closed dag_docstring b0 done todo c
    ∧ last (current_barrier_nodes c) = Some anchor
    ∧ end_of_barrier c = anchor
    ∧ m !! node_id anchor = Some (current_qubits c)
    ∧ topological_op_nodes dag_docstring = pre ++ anchor :: post
    ∧ (∀ x, x ∈ current_barrier_nodes c → x ∈ pre ++ [anchor])
    ∧ payload <$> op_nodes out
      = (pre ≫= emit m) ++ collapsed_marker (current_qubits c)
          :: (post ≫= emit m).
Proof.
  intros b0 b1 b2 c.
  assert (Hwf : wf_dag dag_docstring) by by_evaluation.
  assert (Hbars : barriers_of dag_docstring = [b0; b1; b2]) by reflexivity.
  docstring_merged_group Hc.
  split; [by vm_compute|]. split; [by vm_compute|]. split; [by_evaluation|].
  exact (C4_anchor_is_last_member [dag_docstring] 0 dag_docstring b0 b1 [b2] c
           eq_refl Hwf Hbars Hc).
Defined.

Lemma C5_collapsed_marker_operands_witness :
  let b0 := mkDAGNode 1 (Barrier 1) [q 0] [] None in
  let b1 := mkDAGNode 2 (Barrier 1) [q 1] [] None in
  let b2 := mkDAGNode 3 (Barrier 3) [q 0; q 1; q 2] [] None in
  let c := collect_loop dag_docstring (collect_init dag_docstring b0) [b1; b2] in
  let union := group_qubits (current_barrier_nodes c) in
  current_barrier_nodes c = [b1; b2]
  ∧ end_of_barrier c = b2
  ∧ union = {[ q 0; q 1; q 2 ]}
  ∧ size union = 3
  ∧ ∃ m pre post out o1 nd o2 done todo,
    _collect_potential_merges dag_docstring (barriers_of dag_docstring) = Some m
    ∧ run [dag_docstring] 0 = Some ([dag_docstring] ++ [out], 1)
    ∧ concat (current_barrier_nodes
                <$> closings dag_docstring (collect_init dag_docstring b0)
                      [b1; b2])
      = barriers_of dag_docstring
    ∧ [b1; b2] = done ++ todo
    ∧ group_closed dag_docstring b0 done todo c
    ∧ current_qubits c = union
    ∧ m !! node_id (end_of_barrier c) = Some union
    ∧ topological_op_nodes dag_docstring = pre ++ end_of_barrier c :: post
    ∧ op_nodes out = o1 ++ nd :: o2
    ∧ payload <$> o1 = pre ≫= emit m
    ∧ payload <$> o2 = post ≫= emit m
    ∧ op nd = Barrier (size union)
    ∧ list_to_set (qargs nd) = union
    ∧ NoDup (qargs nd)
    ∧ num_qubits (op nd) = size union
    ∧ length (qargs nd) = size union
    ∧ cargs nd = [] ∧ condition nd = None.
Proof.
  intros b0 b1 b2 c union.
  assert (Hwf : wf_dag dag_docstring) by by_evaluation.
  assert (Hbars : barriers_of dag_docstring = [b0; b1; b2]) by reflexivity.
  docstring_merged_group Hc.
  split; [by vm_compute|]. split; [by vm_compute|].
  split; [by_evaluation|]. split; [by vm_compute|].
  exact (C5_collapsed_marker_operands [dag_docstring] 0 dag_docstring b0 b1
           [b2] c eq_refl Hwf Hbars Hc).
Defined.

(** * The pass as a whole *)

Lemma name_payload nd1 nd2 : payload nd1 = payload nd2 → name nd1 = name nd2.
Proof. unfold payload, name. by intros [= -> _ _ _]. Qed.

(** The nodes that are no markers pass through the rewriter as they are. *)
Lemma non_barriers_emit m (ops out_nodes : list DAGNode) :
  payload <$> out_nodes = ops ≫= emit m →
  payload <$> filter (λ nd, name nd ≠ "barrier"%string) out_nodes
  = payload <$> filter (λ nd, name nd ≠ "barrier"%string) ops.
Proof.
  revert out_nodes. induction ops as [|x ops IH]; intros out_nodes Hout.
  - by apply fmap_nil_inv in Hout as ->.
  - rewrite bind_cons in Hout.
    apply fmap_app_inv in Hout as (o1 & o2 & Ho1 & Ho2 & ->).
    symmetry in Ho1, Ho2.
    rewrite filter_app, fmap_app, (IH o2 Ho2). clear IH Ho2.
    unfold emit in Ho1. case_bool_decide as Hx.
    + rewrite (filter_cons_False _ x) by (intros Hn; by apply Hn).
      destruct (m !! node_id x) as [qubits|].
      * apply fmap_cons_inv in Ho1 as (nd & o1' & Hnd & Hnil & ->).
        symmetry in Hnil. apply fmap_nil_inv in Hnil as ->.
        rewrite filter_cons_False; [done|]. intros Hn. apply Hn.
        unfold name, payload in *. by injection Hnd as <- _ _ _.
      * by apply fmap_nil_inv in Ho1 as ->.
    + rewrite (filter_cons_True _ x) by done.
      apply fmap_cons_inv in Ho1 as (nd & o1' & Hnd & Hnil & ->).
      symmetry in Hnil. apply fmap_nil_inv in Hnil as ->.
      rewrite filter_cons_True by (by rewrite <- (name_payload _ _ Hnd)).
      simpl. by rewrite Hnd.
Qed.

(** ** C3 *)

(** C3. For every input graph [run] returns a graph whose nodes that are no
    markers are, in the order of the walk, those of the input with the same
    operation, the same ordered qubit and classical operands and the same
    condition; their number is the same, and so are the quantum and the
    classical registers. *)
Theorem C3_non_marker_structure_preserved
    (h : Heap) (r : nat) (d : DAGCircuit) :
  h !! r = Some d →
  ∃ h' r' out,
    run h r = Some (h', r') ∧ h' !! r' = Some out
    ∧ payload <$> non_barriers_of out = payload <$> non_barriers_of d
    ∧ length (non_barriers_of out) = length (non_barriers_of d)
    ∧ qregs out = qregs d ∧ cregs out = cregs d.
Proof.
  intros Hr. rewrite (run_eq h r d Hr).
  assert (Hsame : ∃ h' r' out, Some (h, r) = Some (h', r') ∧ h' !! r' = Some out
    ∧ payload <$> non_barriers_of out = payload <$> non_barriers_of d
    ∧ length (non_barriers_of out) = length (non_barriers_of d)
    ∧ qregs out = qregs d ∧ cregs out = cregs d).
  { by exists h, r, d. }
  destruct (_collect_potential_merges d (barriers_of d)) as [m|]; [|done].
  case_bool_decide; [done|].
  destruct (rebuild_spec m d) as (Hq & Hc & Hp).
  apply non_barriers_emit in Hp.
  exists (h ++ [rebuild m d]), (length h), (rebuild m d).
  split; [done|]. split; [by apply list_lookup_middle|].
  split; [done|]. split; [|done].
  apply (f_equal length) in Hp. by rewrite !length_fmap in Hp.
Qed.

Lemma C3_non_marker_structure_preserved_witness :
  ∃ h' r' out,
    run [dag_blocked] 0 = Some (h', r') ∧ h' !! r' = Some out
    ∧ payload <$> non_barriers_of out = payload <$> non_barriers_of dag_blocked
    ∧ length (non_barriers_of out) = length (non_barriers_of dag_blocked)
    ∧ qregs out = qregs dag_blocked ∧ cregs out = cregs dag_blocked.
Proof.
  apply (C3_non_marker_structure_preserved [dag_blocked] 0 dag_blocked).
  reflexivity.
Defined.

(** ** C6 *)




(** ** C7 *)

(** C7. In [barrier(q0); x(q0); barrier(q0)] the gate is a descendant of the
    first marker and an ancestor of the second, so the descendants of the
    group of the first marker meet the ancestors of the second marker and the
    test fails; the mapping gets an entry on [q0] for each marker, and the
    graph [run] builds has the three nodes of the input, both markers as they
    were. *)
Theorem C7_blocked_markers_not_merged :
  let b1 := mkDAGNode 1 (Barrier 1) [q 0] [] None in
  let x := mkDAGNode 2 XGate [q 0] [] None in
  let b2 := mkDAGNode 3 (Barrier 1) [q 0] [] None in
  let G := collect_init dag_blocked b1 in
  topological_op_nodes dag_blocked = [b1; x; b2]
  ∧ barriers_of dag_blocked = [b1; b2]
  ∧ node_id x ∈ descendants dag_blocked b1
  ∧ node_id x ∈ ancestors dag_blocked b2
  ∧ ¬ current_descendants G ## next_ancestors dag_blocked G b2
  ∧ can_merge dag_blocked G b2 = false
  ∧ (∃ m, _collect_potential_merges dag_blocked (barriers_of dag_blocked) = Some m
          ∧ dom m = {[ 1; 3 ]}
          ∧ m !! 1 = Some {[ q 0 ]} ∧ m !! 3 = Some {[ q 0 ]})
  ∧ (∃ out, run [dag_blocked] 0 = Some ([dag_blocked; out], 1)
            ∧ op_nodes out = [b1; x; b2]).
Proof.
  intros b1 x b2 G.
  split; [reflexivity|]. split; [reflexivity|].
  split; [by_evaluation|].
  split; [by_evaluation|].
  split.
  { intros Hd. apply (Hd (node_id x)); by_evaluation. }
  split; [by vm_compute|].
  split.
  - eexists. split; [reflexivity|].
    split; [|split]; by_evaluation.
  - eexists. split; by vm_compute.
Qed.

(** ** C8 *)

(** C8. [run] is not idempotent. On the circuit of the module docstring,
    [barrier(q0); barrier(q1); barrier(q0, q1, q2)], the first call returns a
    graph with a marker on [q0] followed by a marker on the three qubits; the
    second call, on that graph, merges the two and returns a graph with one
    marker. *)
Theorem C8_not_idempotent :
  ∃ out1 out2 qs1 qs2,
    run [dag_docstring] 0 = Some ([dag_docstring; out1], 1)
    ∧ run [dag_docstring; out1] 1 = Some ([dag_docstring; out1; out2], 2)
    ∧ qs1 ≡ₚ [q 0; q 1; q 2] ∧ qs2 ≡ₚ [q 0; q 1; q 2]
    ∧ payload <$> op_nodes out1
      = [(Barrier 1, [q 0], [], None); (Barrier 3, qs1, [], None)]
    ∧ payload <$> op_nodes out2 = [(Barrier 3, qs2, [], None)]
    ∧ length (op_nodes out1) = 2 ∧ length (op_nodes out2) = 1
    ∧ out2 ≠ out1.
Proof.
  eexists _, _, _, _.
  split; [by vm_compute|]. split; [by vm_compute|].
  split; [|split; [|split; [by vm_compute|split; [by vm_compute|]]]].
  - by_evaluation.
  - by_evaluation.
  - split; [reflexivity|]. split; [reflexivity|]. discriminate.
Qed.

(** ** C9 *)

(** Every node of the rebuilt graph carries what a node of the input that is
    no marker carries, or is a collapsed marker. *)
Lemma rebuild_nodes m d nd :
  nd ∈ op_nodes (rebuild m d) →
  (∃ nd0, nd0 ∈ op_nodes d ∧ name nd0 ≠ "barrier"%string
          ∧ payload nd = payload nd0)
  ∨ (∃ qubits, payload nd = collapsed_marker qubits).
Proof.
  intros Hin. destruct (rebuild_spec m d) as (_ & _ & Hp).
  assert (Hpay : payload nd ∈ topological_op_nodes d ≫= emit m).
  { rewrite <- Hp. apply list_elem_of_fmap. eauto. }
  apply list_elem_of_bind in Hpay as (nd0 & Hemit & Hnd0).
  unfold emit in Hemit. case_bool_decide.
  - destruct (m !! node_id nd0) as [qubits|]; [|by apply not_elem_of_nil in Hemit].
    apply list_elem_of_singleton in Hemit. right. by exists qubits.
  - apply list_elem_of_singleton in Hemit. left. by exists nd0.
Qed.

(** C9. [run] does not change its input graph, nor any other graph that is in
    the store when it is called. What it returns is either the reference it
    was given, with the store as it was, when the collector's result is false,
    or a reference that was not in use, to a graph that is added to the store
    and is made of copies of the nodes of the input that are no markers and of
    collapsed markers. The graph returned depends on the input graph alone. *)
Theorem C9_input_not_mutated (h : Heap) (r : nat) (d : DAGCircuit) :
  h !! r = Some d →
  ∃ h' r' out,
    run h r = Some (h', r') ∧ h' !! r' = Some out
    ∧ h' !! r = Some d
    ∧ (∀ i g, h !! i = Some g → h' !! i = Some g)
    ∧ ((dict_truth (_collect_potential_merges d (barriers_of d)) = false
        ∧ r' = r ∧ h' = h)
       ∨ (dict_truth (_collect_potential_merges d (barriers_of d)) = true
          ∧ h !! r' = None ∧ h' = h ++ [out]
          ∧ ∀ nd, nd ∈ op_nodes out →
              (∃ nd0, nd0 ∈ op_nodes d ∧ name nd0 ≠ "barrier"%string
                      ∧ payload nd = payload nd0)
              ∨ (∃ qubits, payload nd = collapsed_marker qubits)))
    ∧ (∀ h2 r2, h2 !! r2 = Some d →
         ∃ h2' r2', run h2 r2 = Some (h2', r2') ∧ h2' !! r2' = Some out).
Proof.
  intros Hr.
  assert (Hpure : ∀ h2 r2, h2 !! r2 = Some d →
    run h2 r2 = Some (match _collect_potential_merges d (barriers_of d) with
          | Some m => if bool_decide (m = ∅) then (h2, r2)
                      else (h2 ++ [rebuild m d], length h2)
          | None => (h2, r2)
          end)) by (intros; by apply run_eq).
  unfold dict_truth.
  destruct (_collect_potential_merges d (barriers_of d)) as [m|].
  - case_bool_decide.
    + exists h, r, d. rewrite (Hpure h r Hr). repeat split; try done; eauto.
    + exists (h ++ [rebuild m d]), (length h), (rebuild m d).
      rewrite (Hpure h r Hr). split; [done|].
      split; [by apply list_lookup_middle|].
      split; [by apply lookup_app_l_Some|].
      split; [intros i g Hi; by apply lookup_app_l_Some|].
      split.
      * right. split; [done|]. split; [by apply lookup_ge_None_2|].
        split; [done|]. apply rebuild_nodes.
      * intros h2 r2 Hr2. exists (h2 ++ [rebuild m d]), (length h2).
        rewrite (Hpure h2 r2 Hr2). split; [done|]. by apply list_lookup_middle.
  - exists h, r, d. rewrite (Hpure h r Hr). repeat split; try done; eauto.
Qed.

Lemma C9_input_not_mutated_witness :
  ∃ h' r' out,
    run [dag_docstring] 0 = Some (h', r') ∧ h' !! r' = Some out
    ∧ h' !! 0 = Some dag_docstring.
Proof.
  destruct (C9_input_not_mutated [dag_docstring] 0 dag_docstring eq_refl)
    as (h' & r' & out & Hrun & Hout & Hin & _).
  by exists h', r', out.
Defined.

(** ** C10 *)

(** C10. For every input graph with two markers or more the collector returns
    a mapping that is not empty, and [run] returns a reference that was not in
    use before the call, other than the one it was given, to the graph it has
    built and added to the store. *)
Theorem C10_two_markers_fresh_graph (h : Heap) (r : nat) (d : DAGCircuit) :
  h !! r = Some d → 2 ≤ length (barriers_of d) →
  ∃ m,
    _collect_potential_merges d (barriers_of d) = Some m
    ∧ m ≠ ∅
    ∧ run h r = Some (h ++ [rebuild m d], length h)
    ∧ length h ≠ r
    ∧ h !! length h = None.
Proof.
  intros Hr Hlen.
  destruct (barriers_of d) as [|b0 [|b1 bs]] eqn:Hbars; simpl in Hlen; [lia..|].
  destruct (run_two h r d b0 b1 bs Hr Hbars) as (Hm & Hne & Hrun).
  rewrite Hbars in Hm. eexists. split; [exact Hm|]. split; [done|].
  split; [done|]. apply lookup_lt_Some in Hr.
  split; [lia|]. by apply lookup_ge_None_2.
Qed.

(** For [barrier(q0); x(q0); barrier(q0)], where nothing is merged, the graph
    built is equal to the input and is a second object of the store. *)
Lemma C10_two_markers_fresh_graph_witness :
  ∃ m,
    _collect_potential_merges dag_blocked (barriers_of dag_blocked) = Some m
    ∧ m ≠ ∅
    ∧ run [dag_blocked] 0 = Some ([dag_blocked; dag_blocked], 1)
    ∧ 1 ≠ 0.
Proof.
  destruct (C10_two_markers_fresh_graph [dag_blocked] 0 dag_blocked eq_refl)
    as (m & Hm & Hne & Hrun & Hfresh & _).
  - simpl. lia.
  - exists m. split; [exact Hm|]. split; [exact Hne|]. split; [|exact Hfresh].
    rewrite Hrun. injection Hm as <-. by vm_compute.
Defined.

(** * Further properties of the collector *)

Section collector_facts.
Context (dag : DAGCircuit).
Implicit Types (st c : Collector) (B : DAGNode) (rest : list DAGNode).

Lemma collect_step_end st B : end_of_barrier (collect_step dag st B) = B.
Proof. unfold collect_step. by destruct (can_merge dag st B). Qed.

Lemma collect_loop_end st rest B :
  end_of_barrier (collect_loop dag st (rest ++ [B])) = B.
Proof.
  unfold collect_loop. rewrite foldl_app. simpl. apply collect_step_end.
Qed.

(** The members of the groups closed from a state on are the members of
    that state and the markers still to come. *)
Lemma closings_members st rest c x :
  c ∈ closings dag st rest → x ∈ current_barrier_nodes c →
  x ∈ current_barrier_nodes st ++ rest.
Proof.
  intros Hc Hx. rewrite <- (closings_concat dag st rest).
  apply list_elem_of_In, in_concat. exists (current_barrier_nodes c).
  split; apply list_elem_of_In; [|done]. apply list_elem_of_fmap. eauto.
Qed.

(** Every entry of the mapping was stored at some closing. *)
Lemma foldl_store_entry_lookup m0 cs k v :
  foldl store_entry m0 cs !! k = Some v →
  m0 !! k = Some v
  ∨ ∃ c, c ∈ cs ∧ node_id (end_of_barrier c) = k ∧ current_qubits c = v.
Proof.
  revert m0. induction cs as [|c cs IH]; intros m0 Hk; simpl in *; [by left|].
  apply IH in Hk as [Hk|(c' & Hc' & Hid & Hv)].
  - unfold store_entry in Hk. apply lookup_insert_Some in Hk as [[<- <-]|[_ Hk]].
    + right. exists c. split; [left|done].
    + by left.
  - right. exists c'. split; [by right|done].
Qed.

End collector_facts.

Lemma elem_of_group_qubits (g : list DAGNode) (qb : Qubit) :
  qb ∈ group_qubits g ↔ ∃ b, b ∈ g ∧ qb ∈ qargs b.
Proof.
  unfold group_qubits. rewrite elem_of_union_list. split.
  - intros (X & (b & -> & Hb)%list_elem_of_fmap & Hq).
    exists b. split; [done|]. by apply elem_of_list_to_set in Hq.
  - intros (b & Hb & Hq). exists (next_qubits b). split.
    + apply list_elem_of_fmap. eauto.
    + by apply elem_of_list_to_set.
Qed.

(** X1. The merge groups are consecutive runs of the marker list: the
    mapping is built by one store per group, the member lists of the groups,
    in the order of the stores, concatenate to the list of markers that was
    passed in, and each group ends with the node its entry is stored under. *)
Theorem X1_groups_are_consecutive_runs
    (dag : DAGCircuit) (b0 b1 : DAGNode) (bs : list DAGNode) :
  let groups := closings dag (collect_init dag b0) (b1 :: bs) in
  _collect_potential_merges dag (b0 :: b1 :: bs)
    = Some (foldl store_entry ∅ groups)
  ∧ concat (current_barrier_nodes <$> groups) = b0 :: b1 :: bs
  ∧ Forall (λ c, last (current_barrier_nodes c) = Some (end_of_barrier c)) groups.
Proof.
  intros groups. split; [apply collect_two|]. split.
  - apply (closings_concat dag (collect_init dag b0) (b1 :: bs)).
  - eapply Forall_impl; [apply closings_inv, collect_init_inv|].
    by intros c [Hl _].
Qed.

(** The collector returns a mapping for two markers or more only, and the
    mapping is then the one built by the stores. *)
Lemma collect_Some dag barriers m :
  _collect_potential_merges dag barriers = Some m →
  ∃ b0 b1 bs, barriers = b0 :: b1 :: bs
    ∧ m = foldl store_entry ∅ (closings dag (collect_init dag b0) (b1 :: bs)).
Proof.
  destruct barriers as [|b0 [|b1 bs]]; [done..|].
  rewrite collect_two. intros Hm. exists b0, b1, bs. split; congruence.
Qed.

Section mapping_facts.
Context (dag : DAGCircuit) (b0 : DAGNode) (rest : list DAGNode).
Let groups := closings dag (collect_init dag b0) rest.
Let m := foldl store_entry ∅ groups.

Lemma groups_inv : Forall group_inv groups.
Proof. apply closings_inv, collect_init_inv. Qed.

Lemma groups_concat : concat (current_barrier_nodes <$> groups) = b0 :: rest.
Proof. apply (closings_concat dag (collect_init dag b0) rest). Qed.

Lemma mapping_dom : dom m = list_to_set ((node_id ∘ end_of_barrier) <$> groups).
Proof. unfold m. rewrite foldl_store_entry_dom, dom_empty_L. set_solver. Qed.

Lemma mapping_dom_subseteq : dom m ⊆ node_ids (b0 :: rest).
Proof.
  rewrite mapping_dom. intros k. rewrite elem_of_list_to_set, elem_of_node_ids.
  intros Hk. apply anchors_subseteq in Hk; [|apply groups_inv].
  by rewrite groups_concat in Hk.
Qed.

Lemma mapping_last_key b : last (b0 :: rest) = Some b → node_id b ∈ dom m.
Proof.
  intros Hlast. rewrite mapping_dom, elem_of_list_to_set.
  apply list_elem_of_fmap. exists (collect_loop dag (collect_init dag b0) rest).
  split; [|apply last_Some_elem_of, closings_last].
  unfold compose. destruct rest as [|b1 bs] eqn:Hrest.
  - by injection Hlast as <-.
  - rewrite last_cons_cons in Hlast. apply last_Some in Hlast as [l' ->].
    by rewrite collect_loop_end.
Qed.

Lemma mapping_values k v : m !! k = Some v → v ⊆ group_qubits (b0 :: rest).
Proof.
  intros [[]%lookup_empty_Some|(c & Hc & _ & <-)]%foldl_store_entry_lookup.
  pose proof groups_inv as Hinv. rewrite Forall_forall in Hinv.
  destruct (Hinv c Hc) as [_ ->].
  intros qb (b & Hb & Hq)%elem_of_group_qubits.
  apply elem_of_group_qubits. exists b. split; [|done].
  by apply (closings_members dag (collect_init dag b0) rest c).
Qed.

End mapping_facts.

(** X2. Whenever the collector returns a mapping, it was given two markers
    or more, every key is the handle of one of them, the handle of the last
    marker is a key, and every value holds only qubits of the markers it was
    given. *)
Theorem X2_mapping_keys_and_values
    (dag : DAGCircuit) (barriers : list DAGNode) (m : gmap nat (gset Qubit)) :
  _collect_potential_merges dag barriers = Some m →
  2 ≤ length barriers
  ∧ dom m ⊆ node_ids barriers
  ∧ (∃ b, last barriers = Some b ∧ node_id b ∈ dom m)
  ∧ (∀ k v, m !! k = Some v → v ⊆ group_qubits barriers).
Proof.
  intros (b0 & b1 & bs & -> & ->)%collect_Some.
  split; [simpl; lia|]. split; [apply mapping_dom_subseteq|]. split.
  - destruct (last (b0 :: b1 :: bs)) as [b|] eqn:Hlast;
      [|by apply last_None in Hlast].
    exists b. split; [done|]. by apply mapping_last_key.
  - apply mapping_values.
Qed.

Lemma X2_mapping_keys_and_values_witness :
  ∃ m, _collect_potential_merges dag_docstring (barriers_of dag_docstring) = Some m
       ∧ dom m ⊆ node_ids (barriers_of dag_docstring).
Proof.
  eexists. split; [reflexivity|].
  by destruct (X2_mapping_keys_and_values dag_docstring
                 (barriers_of dag_docstring) _ eq_refl) as (_ & Hdom & _).
Defined.

(** * Which tests decide a merge *)

(** The ancestors of a marker are apart from the descendants of a marker that
    follows it in the walk. *)
Lemma ancestors_descendants_apart d B0 B rest :
  NoDup (node_id <$> op_nodes d) → B0 :: rest `sublist_of` op_nodes d →
  B ∈ rest → ancestors d B0 ## descendants d B.
Proof.
  intros Hnd (l1 & l2 & Heq & Hsub)%sublist_cons_l HB.
  assert (HB2 : B ∈ l2) by (by eapply elem_of_sublist).
  apply list_elem_of_split in HB2 as (l2a & l2b & ->).
  pose proof (ancestors_before d B0 l1 _ Hnd Heq) as Ha.
  assert (Heq' : op_nodes d = (l1 ++ B0 :: l2a) ++ B :: l2b).
  { by rewrite Heq, <- app_assoc. }
  pose proof (descendants_after d B _ _ Hnd Heq') as Hd.
  rewrite Heq', !fmap_app in Hnd. apply NoDup_app in Hnd as (_ & Hnd & _).
  intros n Hn1%Ha%elem_of_node_ids Hn2%Hd%elem_of_node_ids.
  apply (Hnd n); [|set_solver]. rewrite <- fmap_app. set_solver.
Qed.

Section tests.
Context (d : DAGCircuit) (Hnd : NoDup (node_id <$> op_nodes d)).

Lemma ancestors_step_apart G B0 rest :
  B0 :: rest `sublist_of` op_nodes d →
  (∀ B, B ∈ B0 :: rest → current_ancestors G ## descendants d B) →
  ∀ B, B ∈ rest → current_ancestors (collect_step d G B0) ## descendants d B.
Proof.
  intros Hsub HG B HB.
  pose proof (ancestors_descendants_apart d B0 B rest Hnd Hsub HB) as H0.
  assert (HGB : current_ancestors G ## descendants d B) by (apply HG; set_solver).
  unfold collect_step, next_ancestors. rewrite pruned_eq.
  destruct (can_merge d G B0); simpl; set_solver.
Qed.

Lemma ancestors_loop_apart G bs rest :
  bs ++ rest `sublist_of` op_nodes d →
  (∀ B, B ∈ bs ++ rest → current_ancestors G ## descendants d B) →
  ∀ B, B ∈ rest → current_ancestors (collect_loop d G bs) ## descendants d B.
Proof.
  revert G. induction bs as [|B0 bs IH]; intros G Hsub HG; simpl in *; [done|].
  apply IH.
  - apply sublist_cons_l in Hsub as (l1 & l2 & -> & Hsub).
    by apply sublist_inserts_l, sublist_cons.
  - by apply ancestors_step_apart.
Qed.

(** Before a marker of the walk is tested, the ancestors of the group are
    apart from its descendants. *)
Lemma test_b_holds b0 bs B rest :
  barriers_of d = b0 :: bs ++ B :: rest →
  current_ancestors (collect_loop d (collect_init d b0) bs) ## descendants d B.
Proof.
  intros Hbars.
  assert (Hsub : b0 :: bs ++ B :: rest `sublist_of` op_nodes d).
  { rewrite <- Hbars. apply sublist_filter. }
  apply (ancestors_loop_apart _ bs (B :: rest)); [| |set_solver].
  - apply sublist_cons_l in Hsub as (l1 & l2 & -> & Hsub).
    by apply sublist_inserts_l, sublist_cons.
  - intros B' HB'. simpl.
    by apply (ancestors_descendants_apart d b0 B' (bs ++ B :: rest)).
Qed.

End tests.

(** X3. For the markers of a well-formed graph, taken in the order of the
    walk, the second test of lines 110-114 never fails: the ancestors of the
    current group are always disjoint from the descendants of the next
    marker, so a merge is decided by the qubit test and the third test
    alone. *)
Theorem X3_second_test_never_fails
    (d : DAGCircuit) (b0 : DAGNode) (bs : list DAGNode) (B : DAGNode)
    (rest : list DAGNode) :
  wf_dag d →
  barriers_of d = b0 :: bs ++ B :: rest →
  let G := collect_loop d (collect_init d b0) bs in
  current_ancestors G ## descendants d B
  ∧ isdisjoint (current_ancestors G) (next_descendants d G B) = true
  ∧ can_merge d G B
    = negb (isdisjoint (current_qubits G) (next_qubits B))
      && isdisjoint (current_descendants G) (next_ancestors d G B).
Proof.
  intros [Hnd _] Hbars G.
  pose proof (test_b_holds d Hnd b0 bs B rest Hbars) as Hb. fold G in Hb.
  assert (Hb' : isdisjoint (current_ancestors G) (next_descendants d G B) = true).
  { unfold isdisjoint, next_descendants. rewrite pruned_eq.
    apply bool_decide_eq_true. set_solver. }
  split; [done|]. split; [done|].
  unfold can_merge. by rewrite Hb', andb_true_r.
Qed.

Lemma X3_second_test_never_fails_witness :
  let b0 := mkDAGNode 2 (Barrier 1) [q 0] [] None in
  let b1 := mkDAGNode 3 (Barrier 2) [q 0; q 1] [] None in
  let B := mkDAGNode 4 (Barrier 1) [q 1] [] None in
  let G := collect_loop dag_between (collect_init dag_between b0) [b1] in
  current_barrier_nodes G = [b0; b1]
  ∧ current_ancestors G = {[ 1 ]}
  ∧ descendants dag_between B = {[ 5 ]}
  ∧ next_descendants dag_between G B = {[ 5 ]}
  ∧ current_ancestors G ## descendants dag_between B
  ∧ isdisjoint (current_ancestors G) (next_descendants dag_between G B) = true
  ∧ can_merge dag_between G B
    = negb (isdisjoint (current_qubits G) (next_qubits B))
      && isdisjoint (current_descendants G) (next_ancestors dag_between G B).
Proof.
  intros b0 b1 B G.
  assert (Hwf : wf_dag dag_between) by by_evaluation.
  split; [by vm_compute|]. split; [by_evaluation|]. split; [by_evaluation|].
  split; [by_evaluation|].
  exact (X3_second_test_never_fails dag_between b0 [b1] B [] Hwf eq_refl).
Defined.

Section descendants_of_group.
Context (dag : DAGCircuit).
Implicit Types (st : Collector) (B : DAGNode).







End descendants_of_group.






(** * What a merge group is made of *)

(** What holds at the start and is kept by every iteration holds whenever an
    entry is stored. *)
Lemma closings_Forall (P : Collector → Prop) dag st rest :
  P st → (∀ st B, P st → P (collect_step dag st B)) →
  Forall P (closings dag st rest).
Proof.
  intros Hst Hstep. revert st Hst.
  induction rest as [|B rest IH]; intros st Hst; simpl.
  - by apply Forall_cons.
  - destruct (can_merge dag st B) eqn:E; [|apply Forall_cons; split; [done|]];
      by apply IH, Hstep.
Qed.

Lemma overlapping_step dag st B :
  group_inv st ∧ overlapping (current_barrier_nodes st) →
  group_inv (collect_step dag st B)
  ∧ overlapping (current_barrier_nodes (collect_step dag st B)).
Proof.
  intros [Hinv Hov]. split; [by apply collect_step_inv|].
  rewrite collect_step_members.
  destruct (can_merge dag st B) eqn:E; intros g1 B' g2 Heq Hne.
  - destruct g2 as [|x g2 _] using rev_ind.
    + apply app_inj_tail in Heq as [<- <-].
      apply can_merge_true in E as [Hq _]. by destruct Hinv as [_ <-].
    + rewrite app_comm_cons, app_assoc in Heq.
      apply app_inj_tail in Heq as [Heq _]. by apply (Hov g1 B' g2).
  - destruct g1; [done|]. by destruct g1.
Qed.

(** X5. Every member of a merge group but the first shares a qubit with the
    members that come before it in the group; so the qubit set of a group of
    two markers or more is not empty. Markers are never put together only
    because they are next to each other. *)
Theorem X5_members_overlap
    (dag : DAGCircuit) (b0 : DAGNode) (rest : list DAGNode) (c : Collector) :
  c ∈ closings dag (collect_init dag b0) rest →
  overlapping (current_barrier_nodes c)
  ∧ (2 ≤ length (current_barrier_nodes c) → current_qubits c ≠ ∅).
Proof.
  intros Hc.
  assert (Hall : Forall (λ st, group_inv st ∧ overlapping (current_barrier_nodes st))
                   (closings dag (collect_init dag b0) rest)).
  { apply closings_Forall; [|intros; by apply overlapping_step].
    split; [apply collect_init_inv|]. intros g1 B g2 Heq Hne. simpl in Heq.
    destruct g1; [done|]. by destruct g1. }
  rewrite Forall_forall in Hall. destruct (Hall c Hc) as [[_ Hq] Hov].
  split; [done|]. intros Hlen.
  destruct (current_barrier_nodes c) as [|x [|y g]] eqn:Hg; simpl in Hlen; [lia..|].
  specialize (Hov [x] y g eq_refl). rewrite Hq. intros Hempty.
  apply Hov; [done|]. apply set_eq. intros qb. split; [|set_solver].
  intros [Hx _]%elem_of_intersection.
  assert (Hin : qb ∈ group_qubits (x :: y :: g)).
  { apply elem_of_group_qubits in Hx as (b & Hb & Hqb).
    apply elem_of_group_qubits. exists b. split; [set_solver|done]. }
  rewrite Hempty in Hin. set_solver.
Qed.

Lemma X5_members_overlap_witness :
  let b1 := mkDAGNode 1 (Barrier 1) [q 0] [] None in
  let b2 := mkDAGNode 2 (Barrier 1) [q 0] [] None in
  overlapping [b1; b2].
Proof.
  intros b1 b2.
  refine (proj1 (X5_members_overlap dag_twice b1 [b2]
                   (collect_step dag_twice (collect_init dag_twice b1) b2) _)).
  simpl.
  replace (can_merge dag_twice (collect_init dag_twice b1) b2)
    with true by (by vm_compute).
  apply list_elem_of_here.
Defined.

(** * The markers of the rebuilt graph *)

Section rebuilt_markers.
Context (m : gmap nat (gset Qubit)).

(** The markers of the output are what the rewriter appends for the markers
    of the input. *)
Lemma barriers_emit (ops out_nodes : list DAGNode) :
  payload <$> out_nodes = ops ≫= emit m →
  payload <$> filter (λ nd, name nd = "barrier"%string) out_nodes
  = filter (λ nd, name nd = "barrier"%string) ops ≫= emit m.
Proof.
  revert out_nodes. induction ops as [|x ops IH]; intros out_nodes Hout.
  - by apply fmap_nil_inv in Hout as ->.
  - rewrite bind_cons in Hout.
    apply fmap_app_inv in Hout as (o1 & o2 & Ho1 & Ho2 & ->).
    symmetry in Ho1, Ho2.
    rewrite filter_app, fmap_app, (IH o2 Ho2). clear IH Ho2.
    unfold emit in Ho1. case_bool_decide as Hx.
    + rewrite (filter_cons_True _ x) by done. rewrite bind_cons. f_equal.
      unfold emit. rewrite bool_decide_eq_true_2 by done.
      destruct (m !! node_id x) as [qubits|].
      * apply fmap_cons_inv in Ho1 as (nd & o1' & Hnd & Hnil & ->).
        symmetry in Hnil. apply fmap_nil_inv in Hnil as ->.
        rewrite filter_cons_True; [by rewrite Hnd|].
        unfold name, payload in *. by injection Hnd as <- _ _ _.
      * by apply fmap_nil_inv in Ho1 as ->.
    + rewrite (filter_cons_False _ x) by done.
      apply fmap_cons_inv in Ho1 as (nd & o1' & Hnd & Hnil & ->).
      symmetry in Hnil. apply fmap_nil_inv in Hnil as ->.
      rewrite filter_cons_False; [done|].
      by rewrite <- (name_payload _ _ Hnd).
Qed.

Lemma emit_length_le (l : list DAGNode) : length (l ≫= emit m) ≤ length l.
Proof.
  induction l as [|x l IH]; [done|]. rewrite bind_cons, length_app. simpl.
  assert (length (emit m x) ≤ 1); [|lia].
  unfold emit. case_bool_decide; [destruct (m !! node_id x)|]; simpl; lia.
Qed.

(** One marker is appended for each marker of the input that is a key. *)
Lemma emit_length_keys (bars : list DAGNode) :
  Forall (λ nd, name nd = "barrier"%string) bars →
  length (bars ≫= emit m)
  = length (filter (λ nd, node_id nd ∈ dom m) bars).
Proof.
  induction 1 as [|x l Hx _ IH]; [done|]. rewrite bind_cons, length_app, IH.
  unfold emit. rewrite bool_decide_eq_true_2 by done.
  destruct (m !! node_id x) as [qubits|] eqn:E.
  - rewrite filter_cons_True; [done|]. by apply elem_of_dom.
  - rewrite filter_cons_False; [done|]. by apply not_elem_of_dom.
Qed.

(** The qubits under the markers appended for a list of markers. *)
Lemma emit_qubits (bars out_nodes : list DAGNode) :
  Forall (λ nd, name nd = "barrier"%string) bars →
  payload <$> out_nodes = bars ≫= emit m →
  group_qubits out_nodes = ⋃ (mapped_qubits m <$> bars).
Proof.
  intros Hbars. revert out_nodes.
  induction Hbars as [|x l Hx _ IH]; intros out_nodes Hout.
  - by apply fmap_nil_inv in Hout as ->.
  - rewrite bind_cons in Hout.
    apply fmap_app_inv in Hout as (o1 & o2 & Ho1 & Ho2 & ->).
    symmetry in Ho1, Ho2. unfold group_qubits in *.
    rewrite fmap_app, union_list_app_L, (IH o2 Ho2). simpl. f_equal.
    unfold emit in Ho1. rewrite bool_decide_eq_true_2 in Ho1 by done.
    unfold mapped_qubits. destruct (m !! node_id x) as [qubits|]; simpl.
    + apply fmap_cons_inv in Ho1 as (nd & o1' & Hnd & Hnil & ->).
      symmetry in Hnil. apply fmap_nil_inv in Hnil as ->. simpl.
      rewrite (right_id_L ∅ (∪)). unfold next_qubits, payload in *.
      injection Hnd as _ <- _ _. apply list_to_set_elements_L.
    + by apply fmap_nil_inv in Ho1 as ->.
Qed.

End rebuilt_markers.

(** The number of nodes whose handle lies in a set of handles of the list. *)
Lemma length_filter_ids (l : list DAGNode) (X : gset nat) :
  NoDup (node_id <$> l) → X ⊆ node_ids l →
  length (filter (λ nd, node_id nd ∈ X) l) = size X.
Proof.
  intros Hnd HX.
  assert (Hnd' : NoDup (node_id <$> filter (λ nd, node_id nd ∈ X) l)).
  { apply (sublist_NoDup _ (node_id <$> l)); [done|].
    apply fmap_sublist, sublist_filter. }
  rewrite <- (length_fmap node_id), <- (size_list_to_set (C:=gset nat)) by done.
  f_equal. apply set_eq. intros n. rewrite elem_of_list_to_set, list_elem_of_fmap.
  split.
  - by intros (x & -> & [Hx _]%list_elem_of_filter).
  - intros Hn. pose proof (HX n Hn) as Hin.
    apply elem_of_node_ids, list_elem_of_fmap in Hin as (x & -> & Hx).
    exists x. split; [done|]. by apply list_elem_of_filter.
Qed.

(** The anchors are met in the marker list in the order of the stores. *)
Lemma anchors_sublist (cs : list Collector) :
  Forall group_inv cs →
  (node_id ∘ end_of_barrier) <$> cs
    `sublist_of` node_id <$> concat (current_barrier_nodes <$> cs).
Proof.
  induction 1 as [|c cs [Hl _] _ IH]; simpl; [done|].
  apply last_Some in Hl as [g ->].
  rewrite !fmap_app, <- app_assoc. simpl.
  by apply sublist_inserts_l, sublist_skip.
Qed.

Section mapping_size.
Context (dag : DAGCircuit) (b0 : DAGNode) (rest : list DAGNode).
Context (Hnd : NoDup (node_id <$> b0 :: rest)).
Let groups := closings dag (collect_init dag b0) rest.
Let m := foldl store_entry ∅ groups.

(** With unique handles the mapping has one key for each group. *)
Lemma mapping_size : size (dom m) = length groups.
Proof.
  unfold m, groups. rewrite mapping_dom, size_list_to_set, length_fmap; [done|].
  eapply sublist_NoDup; [|apply anchors_sublist, groups_inv].
  by rewrite groups_concat.
Qed.

(** With unique handles every marker finds its qubits in the mapping, under
    the anchor of its group, and the mapping holds no other qubit. *)
Lemma mapping_covers :
  ⋃ (mapped_qubits m <$> b0 :: rest) = group_qubits (b0 :: rest).
Proof.
  apply set_eq. intros qb. rewrite elem_of_union_list. split.
  - intros (X & (x & -> & Hx)%list_elem_of_fmap & Hq).
    unfold mapped_qubits in Hq.
    destruct (m !! node_id x) as [v|] eqn:E; simpl in Hq; [|set_solver].
    by apply (mapping_values dag b0 rest _ _ E).
  - intros (b & Hb & Hq)%elem_of_group_qubits.
    pose proof (groups_concat dag b0 rest) as Hcat.
    rewrite <- Hcat in Hb.
    apply list_elem_of_In, in_concat in Hb as (g & Hg & Hbg).
    apply list_elem_of_In, list_elem_of_fmap in Hg as (c & -> & Hc).
    apply list_elem_of_In in Hbg.
    pose proof (groups_inv dag b0 rest) as Hinv. rewrite Forall_forall in Hinv.
    destruct (Hinv c Hc) as [Hlast Hqs].
    assert (Hlook : m !! node_id (end_of_barrier c) = Some (current_qubits c)).
    { apply closings_lookup; [apply collect_init_inv|done..]. }
    exists (current_qubits c). split.
    + apply list_elem_of_fmap. exists (end_of_barrier c). split.
      * unfold mapped_qubits. by rewrite Hlook.
      * apply (closings_members dag (collect_init dag b0) rest c); [done|].
        by apply last_Some_elem_of.
    + rewrite Hqs. apply elem_of_group_qubits. eauto.
Qed.

End mapping_size.

Lemma barriers_of_Forall d :
  Forall (λ nd, name nd = "barrier"%string) (barriers_of d).
Proof.
  apply Forall_forall. intros x Hx.
  by apply list_elem_of_filter in Hx as [? _].
Qed.

Lemma rebuild_barriers m d :
  payload <$> barriers_of (rebuild m d) = barriers_of d ≫= emit m.
Proof. destruct (rebuild_spec m d) as (_ & _ & Hp). by apply barriers_emit. Qed.

(** A list splits into its markers and its other nodes. *)
Lemma length_barriers_non_barriers d :
  length (op_nodes d) = length (barriers_of d) + length (non_barriers_of d).
Proof.
  unfold barriers_of, non_barriers_of, topological_op_nodes.
  rewrite <- length_app.
  by rewrite (filter_app_complement (λ nd, name nd = "barrier"%string)).
Qed.

(** X6. [run] keeps the set of qubits that lie under a marker: for a
    well-formed input graph, a qubit is an operand of some marker of the graph
    returned exactly when it is an operand of some marker of the input. *)
Theorem X6_covered_qubits_preserved (h : Heap) (r : nat) (d : DAGCircuit) :
  h !! r = Some d → wf_dag d →
  ∃ h' r' out,
    run h r = Some (h', r') ∧ h' !! r' = Some out
    ∧ covered_qubits out = covered_qubits d.
Proof.
  intros Hr [Hnd _]. rewrite (run_eq h r d Hr).
  destruct (_collect_potential_merges d (barriers_of d)) as [m|] eqn:Hm;
    [|by exists h, r, d].
  case_bool_decide; [by exists h, r, d|].
  exists (h ++ [rebuild m d]), (length h), (rebuild m d).
  split; [done|]. split; [by apply list_lookup_middle|].
  apply collect_Some in Hm as (b0 & b1 & bs & Hbars & ->).
  unfold covered_qubits.
  rewrite (emit_qubits _ (barriers_of d) _ (barriers_of_Forall d)
             (rebuild_barriers _ d)).
  rewrite Hbars. apply mapping_covers. rewrite <- Hbars.
  apply (sublist_NoDup _ (node_id <$> op_nodes d)); [done|].
  apply fmap_sublist, sublist_filter.
Qed.

Lemma X6_covered_qubits_preserved_witness :
  ∃ h' r' out,
    run [dag_docstring] 0 = Some (h', r') ∧ h' !! r' = Some out
    ∧ covered_qubits out = covered_qubits dag_docstring.
Proof.
  apply (X6_covered_qubits_preserved [dag_docstring] 0 dag_docstring).
  - reflexivity.
  - by_evaluation.
Defined.

(** X7. [run] never adds a node: the graph returned has at most as many
    operation nodes as the input, and at most as many markers. *)
Theorem X7_never_more_nodes (h : Heap) (r : nat) (d : DAGCircuit) :
  h !! r = Some d →
  ∃ h' r' out,
    run h r = Some (h', r') ∧ h' !! r' = Some out
    ∧ length (op_nodes out) ≤ length (op_nodes d)
    ∧ length (barriers_of out) ≤ length (barriers_of d).
Proof.
  intros Hr. rewrite (run_eq h r d Hr).
  destruct (_collect_potential_merges d (barriers_of d)) as [m|];
    [|by exists h, r, d].
  case_bool_decide; [by exists h, r, d|].
  exists (h ++ [rebuild m d]), (length h), (rebuild m d).
  split; [done|]. split; [by apply list_lookup_middle|]. split.
  - destruct (rebuild_spec m d) as (_ & _ & Hp).
    apply (f_equal length) in Hp. rewrite length_fmap in Hp. rewrite Hp.
    apply emit_length_le.
  - pose proof (rebuild_barriers m d) as Hp.
    apply (f_equal length) in Hp. rewrite length_fmap in Hp. rewrite Hp.
    apply emit_length_le.
Qed.

Lemma X7_never_more_nodes_witness :
  ∃ h' r' out,
    run [dag_docstring] 0 = Some (h', r') ∧ h' !! r' = Some out
    ∧ length (op_nodes out) ≤ length (op_nodes dag_docstring)
    ∧ length (barriers_of out) ≤ length (barriers_of dag_docstring).
Proof.
  apply (X7_never_more_nodes [dag_docstring] 0 dag_docstring). reflexivity.
Defined.

(** Groups are not empty, so there are at most as many groups as markers,
    and as many exactly when every group has one member. *)
Lemma length_groups (gs : list (list DAGNode)) :
  Forall (λ g, g ≠ []) gs →
  length gs ≤ length (concat gs)
  ∧ (length gs < length (concat gs) ↔ Exists (λ g, 2 ≤ length g) gs).
Proof.
  induction 1 as [|g gs Hg _ [IH1 IH2]]; simpl.
  - split; [done|]. rewrite Exists_nil. lia.
  - rewrite length_app, Exists_cons.
    destruct g as [|x [|y g]]; [done| |]; simpl in *.
    + split; [lia|]. rewrite <- IH2. split; [intros; right|intros [?|?]]; lia.
    + split; [lia|]. split; [intros; left|intros]; lia.
Qed.

(** X8. For a well-formed graph with two markers or more, the graph [run]
    builds has exactly one marker for each merge group, the other nodes being
    as many as before; it has fewer nodes than the input exactly when some
    group has two members or more. *)
Theorem X8_one_marker_per_group
    (h : Heap) (r : nat) (d : DAGCircuit) (b0 b1 : DAGNode) (bs : list DAGNode) :
  h !! r = Some d → wf_dag d → barriers_of d = b0 :: b1 :: bs →
  let groups := closings d (collect_init d b0) (b1 :: bs) in
  ∃ out,
    run h r = Some (h ++ [out], length h)
    ∧ length (barriers_of out) = length groups
    ∧ length (op_nodes out) = length (non_barriers_of d) + length groups
    ∧ (length (op_nodes out) < length (op_nodes d)
       ↔ Exists (λ c, 2 ≤ length (current_barrier_nodes c)) groups).
Proof.
  intros Hr [Hnd _] Hbars groups.
  destruct (run_two h r d b0 b1 bs Hr Hbars) as (_ & _ & Hrun).
  set (m := foldl store_entry ∅ (closings d (collect_init d b0) (b1 :: bs))) in *.
  exists (rebuild m d). split; [done|].
  assert (Hids : NoDup (node_id <$> b0 :: b1 :: bs)).
  { rewrite <- Hbars. apply (sublist_NoDup _ (node_id <$> op_nodes d)); [done|].
    apply fmap_sublist, sublist_filter. }
  assert (Hb : length (barriers_of (rebuild m d)) = length groups).
  { pose proof (rebuild_barriers m d) as Hp.
    apply (f_equal length) in Hp. rewrite length_fmap in Hp. rewrite Hp.
    rewrite emit_length_keys by apply barriers_of_Forall.
    rewrite Hbars, length_filter_ids; [by apply mapping_size|done|].
    apply mapping_dom_subseteq. }
  assert (Hn : length (non_barriers_of (rebuild m d)) = length (non_barriers_of d)).
  { destruct (rebuild_spec m d) as (_ & _ & Hp).
    apply non_barriers_emit in Hp. apply (f_equal length) in Hp.
    by rewrite !length_fmap in Hp. }
  assert (Hout : length (op_nodes (rebuild m d))
                 = length (non_barriers_of d) + length groups).
  { rewrite length_barriers_non_barriers. lia. }
  split; [done|]. split; [done|].
  rewrite Hout, (length_barriers_non_barriers d), Hbars.
  pose proof (groups_concat d b0 (b1 :: bs)) as Hcat.
  destruct (length_groups (current_barrier_nodes <$> groups)) as [_ Hlt].
  { apply Forall_fmap. eapply Forall_impl; [apply groups_inv|].
    intros c Hc. by apply group_inv_nonempty. }
  fold groups in Hcat. rewrite Hcat, length_fmap in Hlt.
  rewrite Exists_fmap in Hlt. rewrite <- Hlt. lia.
Qed.

Lemma X8_one_marker_per_group_witness :
  ∃ out,
    run [dag_docstring] 0 = Some ([dag_docstring] ++ [out], 1)
    ∧ length (barriers_of out) = 2.
Proof.
  destruct (X8_one_marker_per_group [dag_docstring] 0 dag_docstring
              (mkDAGNode 1 (Barrier 1) [q 0] [] None)
              (mkDAGNode 2 (Barrier 1) [q 1] [] None)
              [mkDAGNode 3 (Barrier 3) [q 0; q 1; q 2] [] None]
              eq_refl) as (out & Hrun & Hlen & _).
  - by_evaluation.
  - reflexivity.
  - exists out. split; [exact Hrun|]. rewrite Hlen. by vm_compute.
Defined.

(** X9. Every marker of a graph that [run] has built is a plain barrier: it
    has no classical operands and no condition, its qubit operands are
    without repetition and its width is their number. This holds also for the
    markers that were not merged with another one. *)
Theorem X9_rebuilt_markers_are_plain (h : Heap) (r : nat) (d : DAGCircuit) :
  h !! r = Some d → 2 ≤ length (barriers_of d) →
  ∃ out,
    run h r = Some (h ++ [out], length h)
    ∧ Forall plain_barrier (barriers_of out).
Proof.
  intros Hr Hlen.
  destruct (barriers_of d) as [|b0 [|b1 bs]] eqn:Hbars; simpl in Hlen; [lia..|].
  destruct (run_two h r d b0 b1 bs Hr Hbars) as (_ & _ & Hrun).
  eexists. split; [exact Hrun|]. apply Forall_forall. intros nd Hnd.
  assert (Hp : payload nd ∈ barriers_of d ≫= emit
      (foldl store_entry ∅ (closings d (collect_init d b0) (b1 :: bs)))).
  { rewrite <- rebuild_barriers. apply list_elem_of_fmap. eauto. }
  apply list_elem_of_bind in Hp as (x & Hemit & Hx).
  apply list_elem_of_filter in Hx as [Hx _].
  unfold emit in Hemit. rewrite bool_decide_eq_true_2 in Hemit by done.
  destruct (_ !! node_id x) as [qubits|]; [|by apply not_elem_of_nil in Hemit].
  apply list_elem_of_singleton in Hemit. unfold payload in Hemit.
  injection Hemit as Hop Hq Hc Hcond. unfold plain_barrier.
  rewrite Hop, Hq, Hc, Hcond. split; [done|]. split; [apply NoDup_elements|done].
Qed.

Lemma X9_rebuilt_markers_are_plain_witness :
  ∃ out,
    run [dag_docstring] 0 = Some ([dag_docstring] ++ [out], 1)
    ∧ Forall plain_barrier (barriers_of out).
Proof.
  apply (X9_rebuilt_markers_are_plain [dag_docstring] 0 dag_docstring).
  - reflexivity.
  - simpl. lia.
Defined.

(** Where every marker is a key that is mapped to its own qubit set, the
    rewriter appends for each node a node of the same shape. *)
Lemma same_shape_emit m (ops out_nodes : list DAGNode) :
  (∀ x, x ∈ ops → name x = "barrier"%string →
        m !! node_id x = Some (next_qubits x)) →
  payload <$> out_nodes = ops ≫= emit m →
  Forall2 same_shape ops out_nodes.
Proof.
  revert out_nodes. induction ops as [|x ops IH]; intros out_nodes Hm Hout.
  - apply fmap_nil_inv in Hout as ->. constructor.
  - rewrite bind_cons in Hout.
    apply fmap_app_inv in Hout as (o1 & o2 & Ho1 & Ho2 & ->).
    symmetry in Ho1, Ho2.
    assert (Hone : ∃ nd, o1 = [nd] ∧ same_shape x nd).
    { unfold emit in Ho1. case_bool_decide as Hx.
      - rewrite (Hm x) in Ho1 by (done || set_solver).
        apply fmap_cons_inv in Ho1 as (nd & o1' & Hnd & Hnil & ->).
        symmetry in Hnil. apply fmap_nil_inv in Hnil as ->.
        exists nd. split; [done|]. unfold payload in Hnd.
        injection Hnd as Hop Hq _ _. unfold same_shape, name, next_qubits.
        rewrite <- Hop, <- Hq. split; [done|].
        by rewrite list_to_set_elements_L.
      - apply fmap_cons_inv in Ho1 as (nd & o1' & Hnd & Hnil & ->).
        symmetry in Hnil. apply fmap_nil_inv in Hnil as ->.
        exists nd. split; [done|]. unfold payload in Hnd.
        injection Hnd as Hop Hq _ _. unfold same_shape, name, next_qubits.
        by rewrite Hop, Hq. }
    destruct Hone as (nd & -> & Hs). simpl. constructor; [done|].
    apply IH; [|done]. intros y Hy. apply Hm. set_solver.
Qed.

(** X10. When no marker of a well-formed graph is absorbed, that is, when
    every merge group has one member, the graph [run] builds has node for
    node the same names and the same sets of qubits as the input: the call
    changes nothing but the form of the markers. *)
Theorem X10_no_absorption_same_shape
    (h : Heap) (r : nat) (d : DAGCircuit) (b0 b1 : DAGNode) (bs : list DAGNode) :
  h !! r = Some d → wf_dag d → barriers_of d = b0 :: b1 :: bs →
  Forall (λ c, length (current_barrier_nodes c) = 1)
    (closings d (collect_init d b0) (b1 :: bs)) →
  ∃ out,
    run h r = Some (h ++ [out], length h)
    ∧ Forall2 same_shape (op_nodes d) (op_nodes out)
    ∧ payload <$> non_barriers_of out = payload <$> non_barriers_of d.
Proof.
  intros Hr [Hnd _] Hbars Hone.
  destruct (run_two h r d b0 b1 bs Hr Hbars) as (_ & _ & Hrun).
  set (m := foldl store_entry ∅ (closings d (collect_init d b0) (b1 :: bs))) in *.
  exists (rebuild m d). split; [done|].
  destruct (rebuild_spec m d) as (_ & _ & Hp).
  split; [|by apply non_barriers_emit in Hp].
  apply (same_shape_emit m); [|done]. intros x Hx Hname.
  assert (Hin : x ∈ b0 :: b1 :: bs).
  { rewrite <- Hbars. by apply list_elem_of_filter. }
  pose proof (groups_concat d b0 (b1 :: bs)) as Hcat. rewrite <- Hcat in Hin.
  apply list_elem_of_In, in_concat in Hin as (g & Hg & Hxg).
  apply list_elem_of_In, list_elem_of_fmap in Hg as (c & -> & Hc).
  apply list_elem_of_In in Hxg.
  pose proof (groups_inv d b0 (b1 :: bs)) as Hinv.
  rewrite Forall_forall in Hinv, Hone.
  destruct (Hinv c Hc) as [Hlast Hq]. specialize (Hone c Hc).
  destruct (current_barrier_nodes c) as [|y [|z g]] eqn:Hmem; [done| |done].
  apply list_elem_of_singleton in Hxg as ->.
  injection Hlast as Hend.
  assert (Hlook : m !! node_id (end_of_barrier c) = Some (current_qubits c)).
  { apply closings_lookup; [apply collect_init_inv| |done].
    change (NoDup (node_id <$> b0 :: b1 :: bs)).
    rewrite <- Hbars. apply (sublist_NoDup _ (node_id <$> op_nodes d)); [done|].
    apply fmap_sublist, sublist_filter. }
  rewrite <- Hend, Hq in Hlook. rewrite Hlook. f_equal.
  unfold group_qubits. simpl. by rewrite (right_id_L ∅ (∪)).
Qed.

Lemma X10_no_absorption_same_shape_witness :
  ∃ out,
    run [dag_blocked] 0 = Some ([dag_blocked] ++ [out], 1)
    ∧ Forall2 same_shape (op_nodes dag_blocked) (op_nodes out)
    ∧ payload <$> non_barriers_of out = payload <$> non_barriers_of dag_blocked.
Proof.
  apply (X10_no_absorption_same_shape [dag_blocked] 0 dag_blocked
           (mkDAGNode 1 (Barrier 1) [q 0] [] None)
           (mkDAGNode 3 (Barrier 1) [q 0] [] None) []).
  - reflexivity.
  - by_evaluation.
  - reflexivity.
  - simpl.
    replace (can_merge dag_blocked _ _) with false by (by vm_compute).
    repeat constructor.
Defined.
